(** * watchexchange export: the heuristic field extractors of [export_script.py]

    A shallow embedding of the script's extractors and of its collection loop,
    with the regular expressions of the script interpreted by a backtracking
    matcher that follows the priority order of Python's [re] module. *)

From Stdlib Require Import List NArith ZArith Bool Lia String Ascii.
From Stdlib Require DecimalZ.
Import ListNotations.

Set Implicit Arguments.

(* [length] is the length of a list throughout. *)
Abbreviation length := Datatypes.length.

(** ** Text

    A Python [str] is a sequence of code points. *)

Abbreviation char := N.
Definition str := list char.

(** The code points of an ASCII literal. *)
Definition py (x : string) : str := map N_of_ascii (list_ascii_of_string x).

(** The Unicode character database is not part of the repository.  What the
    interpreter answers for ASCII code points is written out below; what it
    answers beyond ASCII is read from these tables, over which every general
    statement of this file is quantified. *)
Class UnicodeDB := {
  (** [str.isspace], which is also the [\s] of [re] and the separator of
      [str.split()] and [str.strip()] *)
  uni_isspace : char -> bool;
  (** the [\d] of [re] *)
  uni_isdecimal : char -> bool;
  (** [str.isalnum], the letters and numbers of [\w] *)
  uni_isalnum : char -> bool;
  (** [str.upper] of one code point (it may give several) *)
  uni_upper : char -> str;
  (** whether a pattern character and a text character, one of them beyond
      ASCII, are equal under [re.IGNORECASE] *)
  uni_casematch : char -> char -> bool
}.

(** Tables in which no code point beyond ASCII is a space, a digit, a letter or
    cased; used where a statement is evaluated on a concrete ASCII text. *)
Definition plain_db : UnicodeDB :=
  {| uni_isspace := fun _ => false;
     uni_isdecimal := fun _ => false;
     uni_isalnum := fun _ => false;
     uni_upper := fun c => [c];
     uni_casematch := fun _ _ => false |}.

Definition is_ascii (c : char) : bool := (c <? 128)%N.
Definition in_range (lo hi c : char) : bool := ((lo <=? c) && (c <=? hi))%N.

Definition ascii_isspace (c : char) : bool := in_range 9 13 c || in_range 28 32 c.
Definition ascii_isdigit (c : char) : bool := in_range 48 57 c.
Definition ascii_isupper (c : char) : bool := in_range 65 90 c.
Definition ascii_islower (c : char) : bool := in_range 97 122 c.
Definition ascii_lower (c : char) : char := if ascii_isupper c then (c + 32)%N else c.
Definition ascii_upper (c : char) : char := if ascii_islower c then (c - 32)%N else c.

Section Text.
Context {U : UnicodeDB}.

Definition isspace (c : char) : bool :=
  if is_ascii c then ascii_isspace c else uni_isspace c.

Definition isdecimal (c : char) : bool :=
  if is_ascii c then ascii_isdigit c else uni_isdecimal c.

(** [\w]: alphanumeric or the underscore. *)
Definition isword (c : char) : bool :=
  if is_ascii c
  then ascii_isupper c || ascii_islower c || ascii_isdigit c || (c =? 95)%N
  else uni_isalnum c.

Definition upper_char (c : char) : str :=
  if is_ascii c then [ascii_upper c] else uni_upper c.

(** [s.upper()] *)
Definition upper (s : str) : str := flat_map upper_char s.

(** A pattern character against a text character, [ic] being [re.IGNORECASE]. *)
Definition char_match (ic : bool) (p c : char) : bool :=
  (p =? c)%N ||
  (ic && (if is_ascii p && is_ascii c
          then (ascii_lower p =? ascii_lower c)%N
          else uni_casematch p c)).

End Text.

(** ** Plain string operations *)

Definition str_eqb (a b : str) : bool :=
  if list_eq_dec N.eq_dec a b then true else false.

Fixpoint starts_with (pre s : str) : bool :=
  match pre, s with
  | [], _ => true
  | p :: pre', c :: s' => (p =? c)%N && starts_with pre' s'
  | _ :: _, [] => false
  end.

(** [x in s] for strings: [x] occurs in [s] as a substring. *)
Fixpoint contains (s x : str) : bool :=
  starts_with x s ||
  match s with
  | [] => false
  | _ :: s' => contains s' x
  end.

(** [sep.join(parts)] *)
Fixpoint join (sep : str) (parts : list str) : str :=
  match parts with
  | [] => []
  | [p] => p
  | p :: rest => p ++ sep ++ join sep rest
  end.

(** [s.replace(old, new)] for a one-character [old]. *)
Definition replace_char (old : char) (new : str) (s : str) : str :=
  flat_map (fun c => if (c =? old)%N then new else [c]) s.

(** ** Regular expressions

    The constructs the script's patterns use.  A pattern compiled with
    [re.VERBOSE] is given as the tree [re] builds from it (blanks and comments
    are no part of that tree). *)

Inductive category := Digit | Space.

Inductive set_item :=
| SChr (c : char)              (* one character *)
| SRange (lo hi : char)        (* lo-hi *)
| SCat (k : category).         (* \d or \s inside brackets *)

Inductive regex :=
| Lit (c : char)                              (* a literal character *)
| Cls (k : category)                          (* \d, \s *)
| AnyOf (items : list set_item)               (* [...] *)
| NoneOf (items : list set_item)              (* [^...] *)
| WordB                                       (* \b *)
| Empty                                       (* the empty pattern *)
| Cat (a b : regex)                           (* ab *)
| Alt (a b : regex)                           (* a|b *)
| Rep (lo : nat) (hi : option nat) (a : regex) (* a{lo,hi}, greedy *)
| Grp (name : string) (a : regex).            (* (?P<name>a) *)

Definition Opt (a : regex) : regex := Rep 0 (Some 1) a.      (* a? *)
Definition Star (a : regex) : regex := Rep 0 None a.         (* a* *)
Definition Plus (a : regex) : regex := Rep 1 None a.         (* a+ *)

Fixpoint seq (l : list regex) : regex :=
  match l with
  | [] => Empty
  | [a] => a
  | a :: l' => Cat a (seq l')
  end.

Fixpoint alts (l : list regex) : regex :=
  match l with
  | [] => AnyOf []
  | [a] => a
  | a :: l' => Alt a (alts l')
  end.

(** A run of literal characters. *)
Definition word (x : string) : regex := seq (map Lit (py x)).

(** A compiled pattern: the tree and the [re.IGNORECASE] flag. *)
Record pattern := Pattern { ignorecase : bool; tree : regex }.

(** The matcher's state at one point of an attempt: the character before the
    point (none at the start of the text), the text from the point on, and the
    groups captured so far, the latest first. *)
Record mstate := MState {
  prev : option char;
  rest : str;
  caps : list (string * str)
}.

Definition step (st : mstate) : list mstate :=
  match rest st with
  | [] => []
  | c :: s => [MState (Some c) s (caps st)]
  end.

(** [f] exactly [n] times. *)
Fixpoint times (f : mstate -> list mstate) (n : nat) (st : mstate) : list mstate :=
  match n with
  | O => [st]
  | S n' => flat_map (times f n') (f st)
  end.

(** [f] at most [n] times, the longer runs first (greedy). *)
Fixpoint upto (f : mstate -> list mstate) (n : nat) (st : mstate) : list mstate :=
  match n with
  | O => [st]
  | S n' => flat_map (upto f n') (f st) ++ [st]
  end.

(** The text consumed between a state and a later state of the same attempt. *)
Definition consumed (st st' : mstate) : str :=
  firstn (length (rest st) - length (rest st')) (rest st).

Section Matcher.
Context {U : UnicodeDB}.

Definition in_category (k : category) (c : char) : bool :=
  match k with
  | Digit => isdecimal c
  | Space => isspace c
  end.

(** Ranges are compared as written: no pattern of the script has a range under
    [re.IGNORECASE]. *)
Definition item_match (ic : bool) (i : set_item) (c : char) : bool :=
  match i with
  | SChr p => char_match ic p c
  | SRange lo hi => in_range lo hi c
  | SCat k => in_category k c
  end.

Definition at_char (ok : char -> bool) (st : mstate) : list mstate :=
  match rest st with
  | c :: _ => if ok c then step st else []
  | [] => []
  end.

Definition is_word_opt (c : option char) : bool :=
  match c with
  | Some x => isword x
  | None => false
  end.

(** [\b]: exactly one side of the point is a word character. *)
Definition at_boundary (st : mstate) : bool :=
  xorb (is_word_opt (prev st)) (is_word_opt (hd_error (rest st))).

(** Every way [r] matches at [st], in the order in which [re]'s backtracking
    tries them: the first branch of an alternative before the second, the
    longer run of a repetition before the shorter.  An unbounded repetition is
    bounded by the length of the remaining text, which is exact for a body that
    consumes a character, as every repeated body of the script's patterns
    does. *)
Fixpoint matches (ic : bool) (r : regex) (st : mstate) : list mstate :=
  match r with
  | Lit p => at_char (char_match ic p) st
  | Cls k => at_char (in_category k) st
  | AnyOf items => at_char (fun c => existsb (fun i => item_match ic i c) items) st
  | NoneOf items => at_char (fun c => negb (existsb (fun i => item_match ic i c) items)) st
  | WordB => if at_boundary st then [st] else []
  | Empty => [st]
  | Cat a b => flat_map (matches ic b) (matches ic a st)
  | Alt a b => matches ic a st ++ matches ic b st
  | Rep lo hi a =>
      let more := match hi with
                  | Some h => h - lo
                  | None => length (rest st)
                  end in
      flat_map (upto (matches ic a) more) (times (matches ic a) lo st)
  | Grp name a =>
      map (fun st' => MState (prev st') (rest st') ((name, consumed st st') :: caps st'))
          (matches ic a st)
  end.

(** A match object: where the match starts and ends, and its groups. *)
Record match_obj := MatchObj {
  m_start : nat;
  m_end : nat;
  m_caps : list (string * str)
}.

(** [m.group(name)]: [None] when the group took no part in the match. *)
Fixpoint lookup (name : string) (l : list (string * str)) : option str :=
  match l with
  | [] => None
  | (n, v) :: l' => if String.eqb n name then Some v else lookup name l'
  end.

Definition group (mo : match_obj) (name : string) : option str :=
  lookup name (m_caps mo).

(** The first match starting exactly at this point. *)
Definition match_here (p : pattern) (before : option char) (s : str) : option mstate :=
  hd_error (matches (ignorecase p) (tree p) (MState before s [])).

(** [p.search(text)]: the leftmost point at which the pattern matches, the end
    of the text included. *)
Fixpoint search_from (p : pattern) (before : option char) (s : str) (pos : nat)
  : option match_obj :=
  match match_here p before s with
  | Some st => Some (MatchObj pos (pos + (length s - length (rest st))) (caps st))
  | None =>
      match s with
      | [] => None
      | c :: s' => search_from p (Some c) s' (S pos)
      end
  end.

Definition search (p : pattern) (s : str) : option match_obj :=
  search_from p None s 0.

(** [re.fullmatch(p, s)]: the first way to match at the start that ends at the
    end of the text. *)
Definition fullmatch (p : pattern) (s : str) : option mstate :=
  find (fun st => match rest st with [] => true | _ => false end)
       (matches (ignorecase p) (tree p) (MState None s [])).

(** [p.findall(s)] for a pattern with one group: the group of every match, the
    matches taken left to right without overlap.  [skip] counts the characters
    of the last match still to step over.  The patterns given to [findall] and
    [sub] here never match the empty string. *)
Fixpoint findall_from (p : pattern) (g : string) (before : option char) (s : str)
  (skip : nat) : list str :=
  match skip with
  | S k =>
      match s with
      | [] => []
      | c :: s' => findall_from p g (Some c) s' k
      end
  | O =>
      match match_here p before s with
      | Some st =>
          match lookup g (caps st) with Some v => v | None => [] end ::
          match s with
          | [] => []
          | c :: s' => findall_from p g (Some c) s' (length s - length (rest st) - 1)
          end
      | None =>
          match s with
          | [] => []
          | c :: s' => findall_from p g (Some c) s' 0
          end
      end
  end.

Definition findall (p : pattern) (g : string) (s : str) : list str :=
  findall_from p g None s 0.

(** [re.sub(p, repl, s)] for a literal replacement: every match, left to right
    without overlap, gives way to [repl]. *)
Fixpoint sub_from (p : pattern) (repl : str) (before : option char) (s : str)
  (skip : nat) : str :=
  match skip with
  | S k =>
      match s with
      | [] => []
      | c :: s' => sub_from p repl (Some c) s' k
      end
  | O =>
      match match_here p before s with
      | Some st =>
          repl ++
          match s with
          | [] => []
          | c :: s' => sub_from p repl (Some c) s' (length s - length (rest st) - 1)
          end
      | None =>
          match s with
          | [] => []
          | c :: s' => c :: sub_from p repl (Some c) s' 0
          end
      end
  end.

Definition sub (p : pattern) (repl : str) (s : str) : str :=
  sub_from p repl None s 0.

End Matcher.

(** ** The pattern library of the script *)

Definition digits (lo hi : nat) : regex := Rep lo (Some hi) (Cls Digit).

(** [\d{2,6}(?:[.,]\d{2})?] *)
Definition AMOUNT : regex :=
  Cat (digits 2 6) (Opt (Cat (AnyOf [SChr 46; SChr 44]) (digits 2 2))).

Definition euro_sign : char := 8364.            (* U+20AC *)
Definition right_quote : char := 8217.          (* U+2019 *)

(** [PRICE_RE], compiled with [re.VERBOSE]:
    [(?:\$\s?)(?P<usd1>AMOUNT) | (?P<usd2>AMOUNT)\s?(?:usd|USD)
     | (?P<eur>AMOUNT)\s?(?:eur|EUR|€) | (?:€\s?)(?P<eur2>AMOUNT)] *)
Definition PRICE_RE : pattern :=
  Pattern false
    (alts
       [ seq [Lit 36; Opt (Cls Space); Grp "usd1" AMOUNT];
         seq [Grp "usd2" AMOUNT; Opt (Cls Space); alts [word "usd"; word "USD"]];
         seq [Grp "eur" AMOUNT; Opt (Cls Space);
              alts [word "eur"; word "EUR"; Lit euro_sign]];
         seq [Lit euro_sign; Opt (Cls Space); Grp "eur2" AMOUNT] ]).

(** [\[[^\]]+\]], the body of the tag optionally captured *)
Definition TAG_BODY : regex := Plus (NoneOf [SChr 93]).

(** [TITLE_TAG_RE]: [\[(?P<tag>[^\]]+)\]] *)
Definition TITLE_TAG_RE : pattern :=
  Pattern false (seq [Lit 91; Grp "tag" TAG_BODY; Lit 93]).

Definition letters (lo hi : nat) : regex :=
  Rep lo (Some hi) (AnyOf [SRange 65 90; SRange 97 122]).

(** [LOCATION_RE], compiled with [re.VERBOSE]:
    [\[(?:USA|US|CONUS|CAN|EU|UK|AUS|NZ|INTL)[-\s]?
     (?P<loc>[A-Z]{2}|[A-Za-z]{2,20}(?:\s?[A-Za-z]{2,20})?)\]].
    The script declares it and never uses it. *)
Definition LOCATION_RE : pattern :=
  Pattern false
    (seq [ Lit 91;
           alts (map word ["USA"; "US"; "CONUS"; "CAN"; "EU"; "UK"; "AUS"; "NZ"; "INTL"]);
           Opt (AnyOf [SChr 45; SCat Space]);
           Grp "loc" (Alt (Rep 2 (Some 2) (AnyOf [SRange 65 90]))
                          (Cat (letters 2 20)
                               (Opt (Cat (Opt (Cls Space)) (letters 2 20)))));
           Lit 93 ])%string.

(** [\bw\b] *)
Definition bounded (w : regex) : regex := seq [WordB; w; WordB].

(** A pattern of alternatives [\bw1\b|\bw2\b|...] compiled with [re.I]. *)
Definition hint (phrases : list string) : pattern :=
  Pattern true (alts (map (fun w => bounded (word w)) phrases)).

Definition SHIP_DEST_HINTS : list (str * pattern) :=
  [ (py "CONUS", hint ["CONUS"]);
    (py "USA", hint ["USA"; "US only"]);
    (py "CANADA", hint ["Canada"; "CAN"]);
    (py "EU", hint ["EU"; "Europe"]);
    (py "UK", hint ["UK"; "United Kingdom"]);
    (py "WORLDWIDE", hint ["worldwide"; "WW shipping"; "international"]) ]%string.

(** [(?:a )?label] *)
Definition a_label : regex := Cat (Opt (word "a ")) (word "label").

Definition LABEL_YES_PATTERNS : list pattern :=
  [ (* \bbuyer (?:provides|supplies|sends) (?:a )?label\b *)
    Pattern true
      (bounded (seq [word "buyer ";
                     alts [word "provides"; word "supplies"; word "sends"];
                     Lit 32; a_label]));
    (* \bbuyer['’]s label\b *)
    Pattern true
      (bounded (seq [word "buyer"; AnyOf [SChr 39; SChr right_quote];
                     word "s label"])) ].

Definition LABEL_NO_PATTERNS : list pattern :=
  [ (* \bseller (?:provides|supplies) (?:a )?label\b *)
    Pattern true
      (bounded (seq [word "seller "; alts [word "provides"; word "supplies"];
                     Lit 32; a_label]));
    (* \bshipping included\b *)
    Pattern true (bounded (word "shipping included"));
    (* \bI will ship\b *)
    Pattern true (bounded (word "I will ship")) ].

(** [\[[^\]]+\]\s*], the pattern [extract_brand_model] removes *)
Definition TAG_AND_BLANKS : pattern :=
  Pattern false (seq [Lit 91; TAG_BODY; Lit 93; Star (Cls Space)]).

(** [[A-Z]{2}] *)
Definition STATE_CODE : pattern :=
  Pattern false (Rep 2 (Some 2) (AnyOf [SRange 65 90])).

(** ** Outcomes of a call *)

Inductive error := AttributeError | KeyError.

Inductive outcome (A : Type) :=
| Returns (a : A)
| Raises (e : error).
Arguments Returns {A} a.
Arguments Raises {A} e.

(** Truth value of a value that is [None] or a string. *)
Definition truthy (v : option str) : bool :=
  match v with
  | Some (_ :: _) => true
  | _ => false
  end.

(** [a or b] *)
Definition py_or (a b : option str) : option str :=
  if truthy a then a else b.

(** [s or None] *)
Definition or_none (s : str) : option str :=
  match s with
  | [] => None
  | _ => Some s
  end.

(** ** The field extractors *)

Section Extractors.
Context {U : UnicodeDB}.

Definition extract_price (text : str) : outcome (option str) :=
  match text with
  | [] => Returns None
  | _ =>
      match search PRICE_RE text with
      | None => Returns None
      | Some m =>
          let '(val, currency) :=
            if truthy (group m "usd1") || truthy (group m "usd2")
            then (py_or (group m "usd1") (group m "usd2"), py "USD")
            else (py_or (group m "eur") (group m "eur2"), py "EUR") in
          match val with
          | None => Raises AttributeError
          | Some v => Returns (Some (currency ++ py " " ++ replace_char 44 [] v))
          end
      end
  end.

Fixpoint lstrip (s : str) : str :=
  match s with
  | c :: s' => if isspace c then lstrip s' else s
  | [] => []
  end.

Definition rstrip (s : str) : str := rev (lstrip (rev s)).

(** [s.strip()] *)
Definition strip (s : str) : str := rstrip (lstrip s).

(** [s.split()]: the maximal runs of characters that are not spaces; [cur] is
    the run being read, its last character first. *)
Fixpoint split_from (cur : str) (s : str) : list str :=
  match s with
  | [] => match cur with [] => [] | _ => [rev cur] end
  | c :: s' =>
      if isspace c
      then match cur with
           | [] => split_from [] s'
           | _ => rev cur :: split_from [] s'
           end
      else split_from (c :: cur) s'
  end.

Definition split (s : str) : list str := split_from [] s.

Definition LOCATION_WORDS : list str :=
  map py ["USA"; "US"; "CAN"; "EU"; "UK"; "AUS"; "NZ"]%string.

Fixpoint first_location (tags : list str) : option str :=
  match tags with
  | [] => None
  | t :: tags' =>
      let tt := strip t in
      if existsb (fun x => contains (upper tt) x) LOCATION_WORDS then Some tt
      else match fullmatch STATE_CODE tt with
           | Some _ => Some tt
           | None => first_location tags'
           end
  end.

Definition extract_location_from_title (title : str) : option str :=
  first_location (findall TITLE_TAG_RE "tag" title).

(** The truth value of [rx.search(text)]. *)
Definition found (rx : pattern) (text : str) : bool :=
  match search rx text with
  | Some _ => true
  | None => false
  end.

(** The labels of the hints found in the text, in the order of the table. *)
Definition found_dests (text : str) : list str :=
  map fst (filter (fun h => found (snd h) text) SHIP_DEST_HINTS).

(** The loop that keeps the first occurrence of every element. *)
Fixpoint dedup_into (out : list str) (found : list str) : list str :=
  match found with
  | [] => out
  | x :: found' =>
      if existsb (str_eqb x) out then dedup_into out found'
      else dedup_into (out ++ [x]) found'
  end.

Definition extract_ship_dests (text : str) : option str :=
  match text with
  | [] => None
  | _ =>
      match found_dests text with
      | [] => None
      | found => Some (join (py ", ") (dedup_into [] found))
      end
  end.

Definition any_search (l : list pattern) (text : str) : bool :=
  existsb (fun rx => found rx text) l.

Definition infer_buyer_label (text : str) : option str :=
  match text with
  | [] => None
  | _ =>
      if any_search LABEL_YES_PATTERNS text then Some (py "yes")
      else if any_search LABEL_NO_PATTERNS text then Some (py "no")
      else None
  end.

Definition extract_brand_model (title : str) : option str * option str :=
  match title with
  | [] => (None, None)
  | _ =>
      let cleaned := strip (sub TAG_AND_BLANKS [] title) in
      let parts := split cleaned in
      if length parts <? 2 then (or_none cleaned, None)
      else (hd_error parts, Some (firstn 200 (join (py " ") (tl parts))))
  end.

End Extractors.

(** ** The collection loop and the export *)

Definition SUBREDDIT : str := py "watchexchange".
Definition MONTHS_BACK : Z := 6.

(** The [limit] given to the listing. *)
Definition LIMIT : nat := 5000.

(** A post as the loop reads it: [post.title], [post.selftext], the name of
    [post.author] ([None] when the post has no author), and the instant
    [datetime.fromtimestamp(post.created_utc, tz=timezone.utc)] in microseconds
    since the epoch. *)
Record post := Post {
  title : option str;
  selftext : option str;
  author : option str;
  created : Z
}.

(** One row of the table, a column per field. *)
Record row := Row {
  watch_brand : option str;
  watch_model : option str;
  sale_price : option str;
  buyers_label : option str;
  seller_location : option str;
  shipping_dests : option str;
  poster : option str;
  date_listed : str
}.

(** [str(n)] for an integer. *)
Fixpoint uint_chars (d : Decimal.uint) : str :=
  match d with
  | Decimal.Nil => []
  | Decimal.D0 d' => 48%N :: uint_chars d'
  | Decimal.D1 d' => 49%N :: uint_chars d'
  | Decimal.D2 d' => 50%N :: uint_chars d'
  | Decimal.D3 d' => 51%N :: uint_chars d'
  | Decimal.D4 d' => 52%N :: uint_chars d'
  | Decimal.D5 d' => 53%N :: uint_chars d'
  | Decimal.D6 d' => 54%N :: uint_chars d'
  | Decimal.D7 d' => 55%N :: uint_chars d'
  | Decimal.D8 d' => 56%N :: uint_chars d'
  | Decimal.D9 d' => 57%N :: uint_chars d'
  end.

Definition str_of_int (n : Z) : str :=
  match Z.to_int n with
  | Decimal.Pos d => uint_chars d
  | Decimal.Neg d => 45%N :: uint_chars d
  end.

(** The name of the file the export writes. *)
Definition out_name (months : Z) : str :=
  py "watchexchange_last_" ++ str_of_int months ++ py "_months.csv".

(** [s or ""] for a value that may be [None]. *)
Definition or_empty (s : option str) : str :=
  match s with
  | Some x => x
  | None => []
  end.

Section Pipeline.
Context {U : UnicodeDB}.

(** The [datetime] and [dateutil] routines are outside the repository:
    [strftime_ymd t] is [t.astimezone(timezone.utc).strftime("%Y-%m-%d")] and
    [minus_months t n] is [t - relativedelta(months=n)]. *)
Variable strftime_ymd : Z -> str.
Variable minus_months : Z -> Z -> Z.

(** The body of the loop after the cutoff test. *)
Definition build_row (p : post) : outcome row :=
  let title := or_empty (title p) in
  let body := or_empty (selftext p) in
  let combined := title ++ [10%N] ++ body in
  let '(brand, model) := extract_brand_model title in
  match extract_price combined with
  | Raises e => Raises e
  | Returns price =>
      let loc := py_or (extract_location_from_title title)
                       (extract_location_from_title body) in
      let ship_dests := extract_ship_dests combined in
      let buyer_label := infer_buyer_label combined in
      Returns (Row brand model price buyer_label loc ship_dests
                   (option_map (fun name => py "u/" ++ name) (author p))
                   (strftime_ymd (created p)))
  end.

(** The loop over the listing, newest post first.  It returns the rows and the
    part of the listing it has not read: on a post older than the cutoff it
    stops, and that post and the ones behind it give no row. *)
Fixpoint collect (cutoff : Z) (listing : list post) (rows : list row)
  : outcome (list row * list post) :=
  match listing with
  | [] => Returns (rows, [])
  | p :: later =>
      if (created p <? cutoff)%Z then Returns (rows, later)
      else match build_row p with
           | Raises e => Raises e
           | Returns r => collect cutoff later (rows ++ [r])
           end
  end.

(** The export from the cutoff on, for a feed of posts and a clock reading
    [now]: the name of the file written and the number of rows in it.  The
    frame built from no row has no column, so that selecting its date column
    raises [KeyError]. *)
Definition export (months : Z) (now : Z) (feed : list post) : outcome (str * nat) :=
  let cutoff := minus_months now months in
  match collect cutoff (firstn LIMIT feed) [] with
  | Raises e => Raises e
  | Returns (rows, _) =>
      match rows with
      | [] => Raises KeyError
      | _ => Returns (out_name months, length rows)
      end
  end.

Definition main (now : Z) (feed : list post) : outcome (str * nat) :=
  export MONTHS_BACK now feed.

End Pipeline.

(** ** Vocabulary of the statements *)

(** The pattern the specification gives for a price:
    [^(USD|EUR) \d+(\.\d{2})?$]. *)
Definition PRICE_TEXT_RE : pattern :=
  Pattern false
    (seq [ Grp "1" (alts [word "USD"; word "EUR"]); Lit 32; Plus (Cls Digit);
           Opt (Grp "2" (Cat (Lit 46) (digits 2 2))) ]).

Section Vocabulary.
Context {U : UnicodeDB}.

(** What a match consumes is a prefix of the text ahead of it. *)
Definition ahead (st st' : mstate) : Prop :=
  exists w, rest st = w ++ rest st'.

(** Patterns without a group leave the captures as they were. *)
Fixpoint group_free (r : regex) : bool :=
  match r with
  | Cat a b | Alt a b => group_free a && group_free b
  | Rep _ _ a => group_free a
  | Grp _ _ => false
  | _ => true
  end.

(** A run of characters of one class. *)
Definition run_of (ok : char -> bool) (w : str) (st st' : mstate) : Prop :=
  Forall (fun c => ok c = true) w /\ rest st = w ++ rest st' /\ caps st' = caps st.

(** Some way of matching [r] at [st] leaves the text [s']. *)
Definition reaches (ic : bool) (r : regex) (st : mstate) (s' : str) : Prop :=
  exists st', In st' (matches ic r st) /\ rest st' = s'.

(** The texts [AMOUNT] matches: two to six digits, then nothing or a dot or a
    comma and two digits. *)
Definition amount (w : str) : Prop :=
  exists ds fr,
    w = ds ++ fr /\ 2 <= length ds <= 6 /\
    Forall (fun c => isdecimal c = true) ds /\
    (fr = [] \/
     exists sep a b, fr = [sep; a; b] /\ (sep = 46%N \/ sep = 44%N) /\
                     isdecimal a = true /\ isdecimal b = true).

Definition PRICE_GROUPS : list string := ["usd1"; "usd2"; "eur"; "eur2"]%string.

(** The shape the specification gives for a price:
    USD or EUR, a space, digits, and possibly a dot and two digits. *)
Definition price_text (s : str) : Prop :=
  exists cur ds fr,
    s = cur ++ [32%N] ++ ds ++ fr /\
    (cur = py "USD" \/ cur = py "EUR") /\
    ds <> [] /\ Forall (fun c => isdecimal c = true) ds /\
    (fr = [] \/
     exists a b, fr = [46%N; a; b] /\ isdecimal a = true /\ isdecimal b = true).

(** The destination tags in the order the hints are declared. *)
Definition DEST_TAGS : list str :=
  map py ["CONUS"; "USA"; "CANADA"; "EU"; "UK"; "WORLDWIDE"]%string.

(** The text the loop gives to the extractors that read title and body. *)
Definition post_text (p : post) : str :=
  or_empty (title p) ++ [10%N] ++ or_empty (selftext p).

(** One day, in the unit of [created]. *)
Definition DAY : Z := 86400000000.

(** The name the specification gives as an example for six months. *)
Definition LISTINGS_NAME : str := py "listings_last_6_months.csv".

(** Stand-ins for the two library routines, with which the loop is run on
    concrete posts; the statements about the loop hold for every choice of
    them.  The first prints the number of the day, the second counts a month
    as thirty days. *)
Definition day_number (t : Z) : str := str_of_int (t / DAY).
Definition thirty_day_months (t n : Z) : Z := (t - n * 30 * DAY)%Z.

(** A feed of one post, created at the instant 0. *)
Definition one_post_feed : list post :=
  [Post (Some (py "[WTS] [USA-CA] Omega Seamaster 300")) (Some (py "Asking $2500 shipped CONUS"))
        (Some (py "seller")) 0].

(** The characters a tag's body is made of: [[^\]]]. *)
Definition not_close (c : char) : bool :=
  negb (existsb (fun i => item_match false i c) [SChr 93]).

(** Four posts as the listing may give them: of the instant 0, of ten days
    before, of 200 days before, and behind these, out of order, one of five
    days before. *)
Definition post_at (t : Z) : post :=
  Post (Some (py "[WTS] [USA-CA] Omega Seamaster 300")) None None t.
Definition four_posts : list post :=
  [post_at 0; post_at (-10 * DAY); post_at (-200 * DAY); post_at (-5 * DAY)].

(** The order the listing promises: no post is newer than a post before it. *)
Fixpoint newest_first (posts : list post) : Prop :=
  match posts with
  | [] => True
  | p :: later => Forall (fun q => (created q <= created p)%Z) later /\ newest_first later
  end.

(** The posts a filter on the date would keep. *)
Definition within (cutoff : Z) (posts : list post) : list post :=
  filter (fun p => (cutoff <=? created p)%Z) posts.

(** Three posts in the order of the listing. *)
Definition three_posts : list post :=
  [post_at 0; post_at (-10 * DAY); post_at (-200 * DAY)].

(** The first test of the location loop: the tag, in capitals, contains one of
    the words. *)
Definition passes_words (tt : str) : bool :=
  existsb (fun x => contains (upper tt) x) LOCATION_WORDS.

(** Patterns without [\b]: what they match does not depend on the character
    before the point. *)
Fixpoint wordb_free (r : regex) : bool :=
  match r with
  | WordB => false
  | Cat a b | Alt a b => wordb_free a && wordb_free b
  | Rep _ _ a | Grp _ a => wordb_free a
  | _ => true
  end.

(** Two states that differ at most in the character before the point. *)
Definition same_ahead (a b : mstate) : Prop :=
  rest a = rest b /\ caps a = caps b.

(** The patterns the label lists put between their [\b]: literal characters,
    sets of single characters, sequences, alternatives and optional parts. *)
Fixpoint literal (r : regex) : bool :=
  match r with
  | Lit _ | Empty => true
  | AnyOf items =>
      forallb (fun i => match i with SChr _ => true | _ => false end) items
  | Cat a b | Alt a b => literal a && literal b
  | Rep 0 (Some 1) a => literal a
  | _ => false
  end.

(** The texts such a pattern spells, the case of the letters apart. *)
Fixpoint phrases (r : regex) : list str :=
  match r with
  | Lit c => [[c]]
  | Empty => [[]]
  | AnyOf items =>
      flat_map (fun i => match i with SChr c => [[c]] | _ => [] end) items
  | Cat a b => flat_map (fun u => map (app u) (phrases b)) (phrases a)
  | Alt a b => phrases a ++ phrases b
  | Rep 0 (Some 1) a => phrases a ++ [[]]
  | _ => []
  end.

(** The phrases of [LABEL_YES_PATTERNS] and of [LABEL_NO_PATTERNS], written
    out. *)
Definition YES_PHRASES : list str :=
  [ py "buyer provides a label"; py "buyer provides label";
    py "buyer supplies a label"; py "buyer supplies label";
    py "buyer sends a label"; py "buyer sends label";
    py "buyer's label"; py "buyer" ++ [right_quote] ++ py "s label" ].

Definition NO_PHRASES : list str :=
  [ py "seller provides a label"; py "seller provides label";
    py "seller supplies a label"; py "seller supplies label";
    py "shipping included"; py "I will ship" ].

(** [w] is the phrase [ph], character by character, under [re.IGNORECASE]. *)
Definition caseless (ph w : str) : Prop :=
  Forall2 (fun p c => char_match true p c = true) ph w.

(** The last character of [x], none when [x] is empty. *)
Definition char_before (x : str) : option char := last (map Some x) None.

(** The point between [x] and [y] is a [\b]: exactly one of the character
    before it and the character behind it is a word character. *)
Definition word_edge (x y : str) : Prop :=
  xorb (is_word_opt (char_before x)) (is_word_opt (hd_error y)) = true.

(** The phrase stands in the text: somewhere in it, in any case of the
    letters, with a [\b] at either end. *)
Definition stands (ph text : str) : Prop :=
  exists x w y,
    text = x ++ w ++ y /\ caseless ph w /\
    word_edge x (w ++ y) /\ word_edge (x ++ w) y.

Definition says_yes (text : str) : Prop :=
  exists ph, In ph YES_PHRASES /\ stands ph text.

Definition says_no (text : str) : Prop :=
  exists ph, In ph NO_PHRASES /\ stands ph text.

(** The tokens of [LOCATION_RE] without INTL. *)
Definition LOCATION_TOKENS : list str :=
  map py ["USA"; "US"; "CONUS"; "CAN"; "EU"; "UK"; "AUS"; "NZ"]%string.

(** What [\s?] matches: nothing or one whitespace character. *)
Definition gap (g : str) : Prop := g = [] \/ exists b, g = [b] /\ isspace b = true.

(** The currency marks [PRICE_RE] accepts in front of an amount, and those it
    accepts behind one, each with the currency [extract_price] answers. *)
Definition MARKS_BEFORE : list (str * str) :=
  [(py "$", py "USD"); ([euro_sign], py "EUR")].

Definition MARKS_AFTER : list (str * str) :=
  [(py "usd", py "USD"); (py "USD", py "USD");
   (py "eur", py "EUR"); (py "EUR", py "EUR"); ([euro_sign], py "EUR")].

(** Patterns made of literals that pass [lit_ok], sets of such literals,
    classes and word boundaries, without a group. *)
Fixpoint plain (lit_ok : char -> bool) (r : regex) : bool :=
  match r with
  | Lit p => lit_ok p
  | AnyOf items =>
      forallb (fun i => match i with SChr p => lit_ok p | _ => false end) items
  | Cls _ | WordB | Empty => true
  | NoneOf _ | Grp _ _ => false
  | Cat a b | Alt a b => plain lit_ok a && plain lit_ok b
  | Rep _ _ a => plain lit_ok a
  end.

(** The literals of the label patterns: ASCII or the right quote. *)
Definition ascii_or_quote (p : char) : bool := is_ascii p || (p =? right_quote)%N.

(** A state of the matcher with every character replaced by its image. *)
Definition map_state (f : char -> char) (st : mstate) : mstate :=
  MState (option_map f (prev st)) (map f (rest st)) (caps st).

(** The ASCII characters of [\w]. *)
Definition ascii_isword (c : char) : bool :=
  ascii_isupper c || ascii_islower c || ascii_isdigit c || (c =? 95)%N.

End Vocabulary.

(** * Properties *)

(** ** The matcher *)

Section MatcherFacts.
Context {U : UnicodeDB}.

(** A relation between a state and a later state that holds of every step of
    [f] and is closed under composition holds of every run of [f]. *)
Section Runs.
Variable f : mstate -> list mstate.
Variable R : mstate -> mstate -> Prop.
Hypothesis R_refl : forall a, R a a.
Hypothesis R_trans : forall a b c, R a b -> R b c -> R a c.
Hypothesis R_step : forall a b, In b (f a) -> R a b.

Lemma times_run n : forall a b, In b (times f n a) -> R a b.
Proof.
  induction n as [|n IH]; simpl; intros a b H.
  - destruct H as [<-|[]]. apply R_refl.
  - apply in_flat_map in H. destruct H as (mid & Hm & Hb).
    eapply R_trans; [apply R_step, Hm | apply IH, Hb].
Qed.

Lemma upto_run n : forall a b, In b (upto f n a) -> R a b.
Proof.
  induction n as [|n IH]; simpl; intros a b H.
  - destruct H as [<-|[]]. apply R_refl.
  - apply in_app_or in H. destruct H as [H|[<-|[]]].
    + apply in_flat_map in H. destruct H as (mid & Hm & Hb).
      eapply R_trans; [apply R_step, Hm | apply IH, Hb].
    + apply R_refl.
Qed.

End Runs.

Lemma char_match_exact p c : char_match false p c = (p =? c)%N.
Proof. unfold char_match. cbn [andb]. apply orb_false_r. Qed.

Lemma at_char_inv ok st st' :
  In st' (at_char ok st) ->
  exists c, ok c = true /\ rest st = c :: rest st' /\ caps st' = caps st
            /\ prev st' = Some c.
Proof.
  unfold at_char, step. destruct (rest st) as [|c s] eqn:E; [intros []|].
  destruct (ok c) eqn:Hok; [|intros []].
  intros [<-|[]]. exists c. simpl. auto.
Qed.


Lemma ahead_refl st : ahead st st.
Proof. now exists []. Qed.

Lemma ahead_trans a b c : ahead a b -> ahead b c -> ahead a c.
Proof.
  intros [w1 H1] [w2 H2]. exists (w1 ++ w2). now rewrite H1, H2, app_assoc.
Qed.

Lemma at_char_ahead ok st st' : In st' (at_char ok st) -> ahead st st'.
Proof.
  intros H. apply at_char_inv in H. destruct H as (c & _ & E & _).
  now exists [c].
Qed.

Lemma matches_ahead ic r : forall st st', In st' (matches ic r st) -> ahead st st'.
Proof.
  induction r as [p|k|items|items| | |a IHa b IHb|a IHa b IHb|lo hi a IHa|name a IHa];
    simpl; intros st st' H.
  - eapply at_char_ahead, H.
  - eapply at_char_ahead, H.
  - eapply at_char_ahead, H.
  - eapply at_char_ahead, H.
  - destruct (at_boundary st); [destruct H as [<-|[]]; apply ahead_refl | destruct H].
  - destruct H as [<-|[]]. apply ahead_refl.
  - apply in_flat_map in H. destruct H as (mid & Hm & Hb).
    eapply ahead_trans; eauto.
  - apply in_app_or in H. destruct H; auto.
  - apply in_flat_map in H. destruct H as (mid & Hm & Hb).
    eapply ahead_trans.
    + eapply times_run; [apply ahead_refl | apply ahead_trans | apply IHa | apply Hm].
    + eapply upto_run; [apply ahead_refl | apply ahead_trans | apply IHa | apply Hb].
  - apply in_map_iff in H. destruct H as (st1 & <- & H1).
    apply IHa in H1. destruct H1 as [w Hw]. now exists w.
Qed.

Lemma consumed_ahead st st' w : rest st = w ++ rest st' -> consumed st st' = w.
Proof.
  intros E. unfold consumed. rewrite E, length_app.
  replace (length w + length (rest st') - length (rest st')) with (length w) by lia.
  now rewrite firstn_app, Nat.sub_diag, firstn_all, firstn_O, app_nil_r.
Qed.


Lemma group_free_caps ic r :
  group_free r = true ->
  forall st st', In st' (matches ic r st) -> caps st' = caps st.
Proof.
  induction r as [p|k|items|items| | |a IHa b IHb|a IHa b IHb|lo hi a IHa|name a IHa];
    simpl; intros G st st' H;
    try (apply at_char_inv in H; destruct H as (c & _ & _ & E & _); exact E).
  - destruct (at_boundary st); [destruct H as [<-|[]]; reflexivity | destruct H].
  - destruct H as [<-|[]]. reflexivity.
  - apply andb_true_iff in G. destruct G as [Ga Gb].
    apply in_flat_map in H. destruct H as (mid & Hm & Hb).
    rewrite (IHb Gb _ _ Hb). now apply IHa.
  - apply andb_true_iff in G. destruct G as [Ga Gb].
    apply in_app_or in H. destruct H; auto.
  - set (more := match hi with Some h => h - lo | None => length (rest st) end) in H.
    apply in_flat_map in H. destruct H as (mid & Hm & Hb).
    transitivity (caps mid).
    + apply upto_run with (f := matches ic a) (R := fun a b => caps b = caps a) (n := more);
        auto; congruence.
    + apply times_run with (f := matches ic a) (R := fun a b => caps b = caps a) (n := lo);
        auto; congruence.
  - discriminate.
Qed.


Lemma times_chars ok n : forall st st',
  In st' (times (at_char ok) n st) -> exists w, length w = n /\ run_of ok w st st'.
Proof.
  induction n as [|n IH]; simpl; intros st st' H.
  - destruct H as [<-|[]]. exists []. repeat split; auto.
  - apply in_flat_map in H. destruct H as (mid & Hm & Hb).
    apply at_char_inv in Hm. destruct Hm as (c & Hc & E & Ec & _).
    destruct (IH _ _ Hb) as (w & Hl & Hw & Er & Ecaps).
    exists (c :: w). repeat split; simpl; auto; try congruence.
Qed.

Lemma upto_chars ok n : forall st st',
  In st' (upto (at_char ok) n st) -> exists w, length w <= n /\ run_of ok w st st'.
Proof.
  induction n as [|n IH]; simpl; intros st st' H.
  - destruct H as [<-|[]]. exists []. repeat split; auto.
  - apply in_app_or in H. destruct H as [H|[<-|[]]].
    + apply in_flat_map in H. destruct H as (mid & Hm & Hb).
      apply at_char_inv in Hm. destruct Hm as (c & Hc & E & Ec & _).
      destruct (IH _ _ Hb) as (w & Hl & Hw & Er & Ecaps).
      exists (c :: w). repeat split; simpl; auto; try congruence. lia.
    + exists []. repeat split; auto. simpl. lia.
Qed.

Lemma digits_inv ic lo hi st st' :
  In st' (matches ic (digits lo hi) st) ->
  exists w, lo <= length w <= lo + (hi - lo) /\ run_of isdecimal w st st'.
Proof.
  simpl. intros H. apply in_flat_map in H. destruct H as (mid & Hm & Hb).
  apply times_chars in Hm. destruct Hm as (w1 & L1 & F1 & E1 & C1).
  apply upto_chars in Hb. destruct Hb as (w2 & L2 & F2 & E2 & C2).
  exists (w1 ++ w2). rewrite length_app. split; [lia|].
  repeat split.
  - apply Forall_app; auto.
  - now rewrite E1, E2, app_assoc.
  - congruence.
Qed.

Lemma in_cat ic a b st st' :
  In st' (matches ic (Cat a b) st) <->
  exists mid, In mid (matches ic a st) /\ In st' (matches ic b mid).
Proof. simpl. apply in_flat_map. Qed.

Lemma in_alt ic a b st st' :
  In st' (matches ic (Alt a b) st) <->
  In st' (matches ic a st) \/ In st' (matches ic b st).
Proof. simpl. apply in_app_iff. Qed.

Lemma in_opt ic a st st' :
  In st' (matches ic (Opt a) st) <-> In st' (matches ic a st) \/ st' = st.
Proof.
  change (matches ic (Opt a) st)
    with ((flat_map (fun x => [x]) (matches ic a st) ++ [st]) ++ []).
  rewrite app_nil_r, in_app_iff, in_flat_map. split.
  - intros [(x & Hx & [<-|[]])|[<-|[]]]; auto.
  - intros [H| ->]; [left; exists st'; simpl; auto | right; simpl; auto].
Qed.

Lemma in_grp ic name a st st' :
  In st' (matches ic (Grp name a) st) <->
  exists st1, In st1 (matches ic a st) /\
              st' = MState (prev st1) (rest st1) ((name, consumed st st1) :: caps st1).
Proof.
  simpl. rewrite in_map_iff. split; intros (x & H1 & H2); exists x; auto.
Qed.

End MatcherFacts.

(** ** [extract_price] *)

Section PriceFacts.
Context {U : UnicodeDB}.


Lemma amount_inv st st' :
  In st' (matches false AMOUNT st) ->
  exists w, amount w /\ rest st = w ++ rest st' /\ caps st' = caps st.
Proof.
  unfold AMOUNT. intros H.
  apply in_cat in H. destruct H as (mid & Hm & Hb).
  apply digits_inv in Hm. destruct Hm as (ds & Lds & Fds & Eds & Cds).
  apply in_opt in Hb. destruct Hb as [Hb| ->].
  - apply in_cat in Hb. destruct Hb as (m1 & H1 & H2).
    apply at_char_inv in H1. destruct H1 as (sep & Hsep & E1 & C1 & _).
    apply digits_inv in H2. destruct H2 as (fd & Lfd & Ffd & Efd & Cfd).
    destruct fd as [|a [|b [|x fd]]]; simpl in Lfd; try lia.
    inversion Ffd as [|? ? Ha Ffd']. inversion Ffd' as [|? ? Hb _]. subst.
    exists (ds ++ [sep; a; b]). split; [|split].
    + exists ds, [sep; a; b]. repeat split; try lia; auto.
      right. exists sep, a, b. repeat split; auto.
      cbn [existsb item_match] in Hsep. rewrite !char_match_exact in Hsep.
      rewrite orb_false_r in Hsep. apply orb_true_iff in Hsep.
      destruct Hsep as [E|E]; apply N.eqb_eq in E; auto.
    + rewrite Eds, E1, Efd, <- app_assoc. reflexivity.
    + congruence.
  - exists ds. split; [|split; auto].
    exists ds, []. rewrite app_nil_r. repeat split; try lia; auto.
Qed.

(** A digit is neither the comma nor the dot. *)
Lemma isdecimal_not_sep c : isdecimal c = true -> c <> 44%N /\ c <> 46%N.
Proof. intros H; split; intros ->; discriminate H. Qed.

Lemma amount_nonempty w : amount w -> w <> [].
Proof.
  intros (ds & fr & -> & L & _) E. apply app_eq_nil in E. destruct E as [-> _].
  simpl in L. lia.
Qed.


(** A match of [PRICE_RE] from a state without captures sets exactly one of its
    four groups, to a text of the shape of an amount. *)
Lemma price_caps before s st :
  In st (matches false (tree PRICE_RE) (MState before s [])) ->
  exists name w, caps st = [(name, w)] /\ In name PRICE_GROUPS /\ amount w.
Proof.
  set (st0 := MState before s []).
  change (tree PRICE_RE) with
    (Alt (Cat (Lit 36) (Cat (Opt (Cls Space)) (Grp "usd1" AMOUNT)))
    (Alt (Cat (Grp "usd2" AMOUNT) (Cat (Opt (Cls Space)) (alts [word "usd"; word "USD"])))
    (Alt (Cat (Grp "eur" AMOUNT)
              (Cat (Opt (Cls Space)) (alts [word "eur"; word "EUR"; Lit euro_sign])))
         (Cat (Lit euro_sign) (Cat (Opt (Cls Space)) (Grp "eur2" AMOUNT)))))).
  assert (Hpre : forall c name st1 st',
             caps st1 = [] ->
             In st' (matches false (Cat (Lit c) (Cat (Opt (Cls Space)) (Grp name AMOUNT))) st1) ->
             exists w, caps st' = [(name, w)] /\ amount w).
  { intros c name st1 st' C0 H.
    apply in_cat in H. destruct H as (m1 & H1 & H).
    apply in_cat in H. destruct H as (m2 & H2 & H).
    apply (group_free_caps false (Lit c) eq_refl) in H1.
    apply (group_free_caps false (Opt (Cls Space)) eq_refl) in H2.
    apply in_grp in H. destruct H as (m3 & H3 & ->).
    apply amount_inv in H3. destruct H3 as (w & Hw & E & C3).
    exists w. simpl. rewrite (consumed_ahead _ _ _ E). split; [|exact Hw].
    now rewrite C3, H2, H1, C0. }
  assert (Hpost : forall name tail st1 st',
             caps st1 = [] -> group_free tail = true ->
             In st' (matches false (Cat (Grp name AMOUNT) (Cat (Opt (Cls Space)) tail)) st1) ->
             exists w, caps st' = [(name, w)] /\ amount w).
  { intros name tail st1 st' C0 G H.
    apply in_cat in H. destruct H as (m1 & H1 & H).
    apply (group_free_caps false (Cat (Opt (Cls Space)) tail)) in H; [|simpl; exact G].
    apply in_grp in H1. destruct H1 as (m0 & H0 & ->).
    apply amount_inv in H0. destruct H0 as (w & Hw & E & C1).
    exists w. rewrite H. simpl. rewrite (consumed_ahead _ _ _ E). split; [|exact Hw].
    now rewrite C1, C0. }
  intros H.
  apply in_alt in H. destruct H as [H|H]; [|apply in_alt in H; destruct H as [H|H];
    [|apply in_alt in H; destruct H as [H|H]]].
  - destruct (Hpre 36%N "usd1"%string st0 st eq_refl H) as (w & E & A).
    exists "usd1"%string, w. split; [exact E|split; [simpl; tauto|exact A]].
  - destruct (Hpost "usd2"%string (alts [word "usd"; word "USD"]) st0 st eq_refl eq_refl H)
      as (w & E & A).
    exists "usd2"%string, w. split; [exact E|split; [simpl; tauto|exact A]].
  - destruct (Hpost "eur"%string (alts [word "eur"; word "EUR"; Lit euro_sign]) st0 st
                    eq_refl eq_refl H) as (w & E & A).
    exists "eur"%string, w. split; [exact E|split; [simpl; tauto|exact A]].
  - destruct (Hpre euro_sign "eur2"%string st0 st eq_refl H) as (w & E & A).
    exists "eur2"%string, w. split; [exact E|split; [simpl; tauto|exact A]].
Qed.

Lemma search_from_In p before s pos mo :
  search_from p before s pos = Some mo ->
  exists b' s' st, In st (matches (ignorecase p) (tree p) (MState b' s' []))
                   /\ m_caps mo = caps st.
Proof.
  revert before pos. induction s as [|c s IH]; intros before pos; simpl;
    unfold match_here;
    destruct (matches (ignorecase p) (tree p) (MState before _ [])) as [|st l] eqn:E;
    simpl; intros H.
  - discriminate.
  - inversion H; subst mo. exists before, [], st. rewrite E. simpl. auto.
  - eapply IH, H.
  - inversion H; subst mo. exists before, (c :: s), st. rewrite E. simpl. auto.
Qed.

End PriceFacts.

Section PriceShape.
Context {U : UnicodeDB}.

(** [extract_price] never raises, and what it returns is built from an amount
    that [PRICE_RE] captured. *)
Lemma extract_price_cases text :
  extract_price text = Returns None \/
  exists cur w,
    (cur = py "USD" \/ cur = py "EUR") /\ amount w /\
    extract_price text = Returns (Some (cur ++ py " " ++ replace_char 44 [] w)).
Proof.
  unfold extract_price. destruct text as [|c text]; [now left|].
  unfold search. destruct (search_from PRICE_RE None (c :: text) 0) as [mo|] eqn:S;
    [|now left].
  right. apply search_from_In in S. destruct S as (b' & s' & st & Hin & Hc).
  apply price_caps in Hin. destruct Hin as (name & w & Hcaps & Hname & Hw).
  pose proof (amount_nonempty Hw) as Hne.
  unfold group. rewrite Hc, Hcaps.
  destruct w as [|x w]; [congruence|].
  simpl in Hname.
  destruct Hname as [<-|[<-|[<-|[<-|[]]]]]; cbn.
  - exists (py "USD"), (x :: w). auto.
  - exists (py "USD"), (x :: w). auto.
  - exists (py "EUR"), (x :: w). auto.
  - exists (py "EUR"), (x :: w). auto.
Qed.

Lemma replace_char_app old new a b :
  replace_char old new (a ++ b) = replace_char old new a ++ replace_char old new b.
Proof. apply flat_map_app. Qed.

Lemma replace_digits ds :
  Forall (fun c => isdecimal c = true) ds -> replace_char 44 [] ds = ds.
Proof.
  induction 1 as [|c ds Hc _ IH]; [reflexivity|].
  unfold replace_char in *. simpl. rewrite IH.
  destruct (N.eqb_spec c 44) as [->|_]; [discriminate Hc | reflexivity].
Qed.


Lemma amount_price_text cur w :
  cur = py "USD" \/ cur = py "EUR" -> amount w ->
  price_text (cur ++ py " " ++ replace_char 44 [] w).
Proof.
  intros Hcur (ds & fr & -> & L & F & Hfr).
  assert (Hds : ds <> []) by (intros ->; simpl in L; lia).
  rewrite replace_char_app, (replace_digits F).
  destruct Hfr as [->|(sep & a & b & -> & Hsep & Ha & Hb)].
  - exists cur, ds, []. repeat split; auto.
  - destruct (isdecimal_not_sep _ Ha) as [Na _].
    destruct (isdecimal_not_sep _ Hb) as [Nb _].
    apply N.eqb_neq in Na, Nb.
    destruct Hsep as [-> | ->]; unfold replace_char; cbn [flat_map];
      rewrite Na, Nb; cbn [N.eqb Pos.eqb app].
    + exists cur, ds, [46%N; a; b]. repeat split; auto.
      right. exists a, b. auto.
    + exists cur, (ds ++ [a; b]), []. repeat split; auto.
      * now rewrite <- !app_assoc, app_nil_r.
      * intros E. apply app_eq_nil in E. destruct E as [E _]. auto.
      * apply Forall_app. auto.
Qed.

End PriceShape.

(** ** Matching a given text: the converse direction *)

Section Reaching.
Context {U : UnicodeDB}.


Lemma reach_cat ic a b st s1 s2 :
  reaches ic a st s1 ->
  (forall st1, rest st1 = s1 -> reaches ic b st1 s2) ->
  reaches ic (Cat a b) st s2.
Proof.
  intros (st1 & H1 & E1) Hb. destruct (Hb st1 E1) as (st2 & H2 & E2).
  exists st2. split; [|exact E2]. apply in_cat. eauto.
Qed.

Lemma reach_alt_l ic a b st s : reaches ic a st s -> reaches ic (Alt a b) st s.
Proof. intros (x & H & E). exists x. split; [apply in_alt; auto | exact E]. Qed.

Lemma reach_alt_r ic a b st s : reaches ic b st s -> reaches ic (Alt a b) st s.
Proof. intros (x & H & E). exists x. split; [apply in_alt; auto | exact E]. Qed.

Lemma reach_opt_take ic a st s : reaches ic a st s -> reaches ic (Opt a) st s.
Proof. intros (x & H & E). exists x. split; [apply in_opt; auto | exact E]. Qed.

Lemma reach_opt_skip ic a st : reaches ic (Opt a) st (rest st).
Proof. exists st. split; [apply in_opt; auto | reflexivity]. Qed.

Lemma reach_grp ic name a st s : reaches ic a st s -> reaches ic (Grp name a) st s.
Proof.
  intros (x & H & E). eexists. split; [apply in_grp; eauto | exact E].
Qed.

Lemma reach_at_char ok st c s :
  rest st = c :: s -> ok c = true ->
  exists st', In st' (at_char ok st) /\ rest st' = s.
Proof.
  intros E Hc. unfold at_char, step. rewrite E, Hc.
  eexists. split; [left; reflexivity | reflexivity].
Qed.

Lemma reach_lit p st s : rest st = p :: s -> reaches false (Lit p) st s.
Proof.
  intros E. apply (@reach_at_char _ st p s E). rewrite char_match_exact. apply N.eqb_refl.
Qed.

Lemma reach_literals l : forall st s,
  rest st = l ++ s -> reaches false (seq (map Lit l)) st s.
Proof.
  induction l as [|c l IH]; intros st s E.
  - exists st. simpl. auto.
  - destruct l as [|c' l].
    + apply reach_lit, E.
    + change (seq (map Lit (c :: c' :: l))) with (Cat (Lit c) (seq (map Lit (c' :: l)))).
      eapply reach_cat; [apply reach_lit, E | intros st1 E1; apply IH, E1].
Qed.

Lemma reach_word x st s : rest st = py x ++ s -> reaches false (word x) st s.
Proof. apply reach_literals. Qed.

Lemma reach_times ok w : forall st s,
  Forall (fun c => ok c = true) w -> rest st = w ++ s ->
  exists st', In st' (times (at_char ok) (length w) st) /\ rest st' = s.
Proof.
  induction w as [|c w IH]; intros st s F E.
  - exists st. simpl. auto.
  - inversion F as [|? ? Hc F']; subst.
    destruct (@reach_at_char ok st c (w ++ s) E Hc) as (st1 & H1 & E1).
    destruct (IH st1 s F' E1) as (st2 & H2 & E2).
    exists st2. split; [|exact E2]. simpl. apply in_flat_map. eauto.
Qed.

Lemma reach_upto ok w : forall n st s,
  Forall (fun c => ok c = true) w -> length w <= n -> rest st = w ++ s ->
  exists st', In st' (upto (at_char ok) n st) /\ rest st' = s.
Proof.
  induction w as [|c w IH]; intros n st s F L E.
  - exists st. split; [|exact E]. destruct n; simpl; auto.
    apply in_or_app. simpl. auto.
  - inversion F as [|? ? Hc F']; subst.
    destruct n as [|n]; [simpl in L; lia|].
    destruct (@reach_at_char ok st c (w ++ s) E Hc) as (st1 & H1 & E1).
    destruct (IH n st1 s F' ltac:(simpl in L; lia) E1) as (st2 & H2 & E2).
    exists st2. split; [|exact E2]. simpl. apply in_or_app. left.
    apply in_flat_map. eauto.
Qed.

(** [\d+] matches any non-empty run of digits ahead. *)
Lemma reach_digits_plus ic ds st s :
  ds <> [] -> Forall (fun c => isdecimal c = true) ds -> rest st = ds ++ s ->
  reaches ic (Plus (Cls Digit)) st s.
Proof.
  intros Hne F E. destruct ds as [|d ds]; [congruence|].
  inversion F as [|? ? Hd F']; subst.
  destruct (@reach_times isdecimal [d] st (ds ++ s)) as (st1 & H1 & E1);
    [auto | exact E |].
  destruct (@reach_upto isdecimal ds (length (rest st)) st1 s) as (st2 & H2 & E2);
    [exact F' | rewrite E; simpl; rewrite length_app; lia | exact E1 |].
  exists st2. split; [|exact E2].
  change (In st2 (flat_map (upto (at_char isdecimal) (length (rest st)))
                           (times (at_char isdecimal) 1 st))).
  apply in_flat_map. eauto.
Qed.

(** [\d{n}] matches [n] digits ahead. *)
Lemma reach_digits_exact ic ds st s :
  Forall (fun c => isdecimal c = true) ds -> rest st = ds ++ s ->
  reaches ic (digits (length ds) (length ds)) st s.
Proof.
  intros F E. destruct (@reach_times isdecimal ds st s F E) as (st1 & H1 & E1).
  exists st1. split; [|exact E1].
  change (In st1 (flat_map (upto (at_char isdecimal) (length ds - length ds))
                           (times (at_char isdecimal) (length ds) st))).
  rewrite Nat.sub_diag. apply in_flat_map. exists st1. simpl. auto.
Qed.

Lemma fullmatch_reach p s :
  reaches (ignorecase p) (tree p) (MState None s []) [] -> fullmatch p s <> None.
Proof.
  intros (st & H & E). unfold fullmatch.
  destruct (find _ _) eqn:Hf; [discriminate|].
  apply (find_none _ _ Hf) in H. now rewrite E in H.
Qed.

End Reaching.


Section PriceTextPattern.
Context {U : UnicodeDB}.

Lemma price_text_fullmatch s : price_text s -> fullmatch PRICE_TEXT_RE s <> None.
Proof.
  intros (cur & ds & fr & -> & Hcur & Hne & F & Hfr).
  apply fullmatch_reach.
  change (tree PRICE_TEXT_RE) with
    (Cat (Grp "1" (Alt (word "USD") (word "EUR")))
         (Cat (Lit 32) (Cat (Plus (Cls Digit))
                            (Opt (Grp "2" (Cat (Lit 46) (digits 2 2))))))).
  apply reach_cat with (s1 := [32%N] ++ ds ++ fr).
  { apply reach_grp. destruct Hcur as [-> | ->].
    - apply reach_alt_l, reach_word. reflexivity.
    - apply reach_alt_r, reach_word. reflexivity. }
  intros st1 E1. apply reach_cat with (s1 := ds ++ fr); [apply reach_lit, E1|].
  intros st2 E2. apply reach_cat with (s1 := fr);
    [apply (@reach_digits_plus U false ds st2 fr Hne F E2)|].
  intros st3 E3. destruct Hfr as [->|(a & b & -> & Ha & Hb)].
  - exists st3. split; [apply in_opt; auto | exact E3].
  - apply reach_opt_take, reach_grp.
    apply reach_cat with (s1 := [a; b]); [apply reach_lit, E3|].
    intros st4 E4.
    apply (@reach_digits_exact U false [a; b] st4 []); [auto|].
    now rewrite E4.
Qed.

End PriceTextPattern.

(** ** [str.strip] and [str.split] *)

Section Blanks.
Context {U : UnicodeDB}.

Lemma lstrip_blanks s :
  exists ws, s = ws ++ lstrip s /\ Forall (fun c => isspace c = true) ws.
Proof.
  induction s as [|c s (ws & E & F)]; [now exists []|].
  simpl. destruct (isspace c) eqn:Hc.
  - exists (c :: ws). simpl. split; [congruence | auto].
  - now exists [].
Qed.

Lemma lstrip_head s c t : lstrip s = c :: t -> isspace c = false.
Proof.
  induction s as [|x s IH]; simpl; [discriminate|].
  destruct (isspace x) eqn:Hx; [exact IH|]. intros E. congruence.
Qed.

Lemma rstrip_blanks s :
  exists ws, s = rstrip s ++ ws /\ Forall (fun c => isspace c = true) ws.
Proof.
  unfold rstrip. destruct (lstrip_blanks (rev s)) as (ws & E & F).
  exists (rev ws). split.
  - rewrite <- rev_app_distr, <- E. symmetry. apply rev_involutive.
  - apply Forall_rev, F.
Qed.

Lemma rstrip_last s t c : rstrip s = t ++ [c] -> isspace c = false.
Proof.
  unfold rstrip. intros E. apply (f_equal (@rev char)) in E.
  rewrite rev_involutive, rev_app_distr in E. simpl in E.
  eapply lstrip_head, E.
Qed.

Lemma split_from_blank cur c s :
  isspace c = true ->
  split_from cur (c :: s) =
  match cur with [] => split_from [] s | _ => rev cur :: split_from [] s end.
Proof. intros H. simpl. now rewrite H. Qed.

Lemma split_from_trailing c : isspace c = true ->
  forall s cur, split_from cur (s ++ [c]) = split_from cur s.
Proof.
  intros Hc. induction s as [|x s IH]; intros cur.
  - simpl. rewrite Hc. now destruct cur.
  - simpl. destruct (isspace x); [destruct cur; now rewrite IH | apply IH].
Qed.

Lemma split_from_blanks_after ws : Forall (fun c => isspace c = true) ws ->
  forall s cur, split_from cur (s ++ ws) = split_from cur s.
Proof.
  induction ws as [|c ws IH] using rev_ind; intros F s cur.
  - now rewrite app_nil_r.
  - apply Forall_app in F. destruct F as [F Fc]. inversion Fc; subst.
    rewrite app_assoc, split_from_trailing by assumption. now apply IH.
Qed.

Lemma split_blanks_before ws : Forall (fun c => isspace c = true) ws ->
  forall s, split (ws ++ s) = split s.
Proof.
  unfold split. induction 1 as [|c ws Hc _ IH]; intros s; [reflexivity|].
  simpl. rewrite Hc. apply IH.
Qed.

(** Splitting does not see the blanks [strip] removes. *)
Lemma split_strip s : split (strip s) = split s.
Proof.
  unfold strip. destruct (lstrip_blanks s) as (ws & E & F).
  destruct (rstrip_blanks (lstrip s)) as (ws' & E' & F').
  rewrite E at 2. rewrite (split_blanks_before F).
  rewrite E' at 2. unfold split. now rewrite (split_from_blanks_after F').
Qed.

Lemma split_from_nil s cur : split_from cur s = [] ->
  cur = [] /\ Forall (fun c => isspace c = true) s.
Proof.
  revert cur. induction s as [|c s IH]; intros cur; simpl.
  - destruct cur; [auto | discriminate].
  - destruct (isspace c) eqn:Hc.
    + destruct cur; [|discriminate]. intros H. apply IH in H.
      split; [reflexivity | constructor; tauto].
    + intros H. apply IH in H. destruct H; discriminate.
Qed.

(** A stripped text is empty or has no blank at either end. *)
Lemma strip_ends s :
  strip s = [] \/
  exists c t c', strip s = c :: t /\ isspace c = false /\
                 (exists t', strip s = t' ++ [c']) /\ isspace c' = false.
Proof.
  destruct (strip s) as [|c t] eqn:E; [now left|]. right.
  unfold strip in E.
  destruct (rstrip_blanks (lstrip s)) as (ws & E' & _). rewrite E in E'.
  assert (Hc : isspace c = false) by (simpl in E'; eapply lstrip_head, E').
  destruct (exists_last (l := c :: t) ltac:(discriminate)) as (t' & c' & El).
  exists c, t, c'. repeat split; auto.
  - now exists t'.
  - rewrite El in E. eapply rstrip_last, E.
Qed.

(** The first token of a text that starts with a character that is no blank. *)
Lemma split_from_single s : forall cur t,
  split_from cur s = [t] -> cur <> [] ->
  (forall t' c', s = t' ++ [c'] -> isspace c' = false) ->
  t = rev cur ++ s.
Proof.
  induction s as [|c s IH]; intros cur t H Hcur Hlast.
  - simpl in H. destruct cur; [congruence|]. injection H as <-. now rewrite app_nil_r.
  - simpl in H. destruct (isspace c) eqn:Hc.
    + destruct cur as [|x cur]; [congruence|].
      injection H as _ H. apply split_from_nil in H. destruct H as [_ F].
      exfalso. destruct (exists_last (l := c :: s) ltac:(discriminate)) as (t' & c' & El).
      pose proof (Hlast _ _ El) as Hl.
      assert (Fa : Forall (fun c => isspace c = true) (c :: s)) by (constructor; auto).
      rewrite El in Fa. apply Forall_app in Fa. destruct Fa as [_ Fa].
      inversion Fa; subst. congruence.
    + apply IH in H; [| discriminate |].
      * rewrite H. simpl. now rewrite <- app_assoc.
      * intros t' c' E. apply (Hlast (c :: t') c'). now rewrite E.
Qed.

Lemma split_strip_nil s : split (strip s) = [] -> strip s = [].
Proof.
  intros H. destruct (strip_ends s) as [E|(c & t & c' & E & Hc & _)]; [exact E|].
  rewrite E in H. apply split_from_nil in H. destruct H as [_ F].
  inversion F; subst. congruence.
Qed.

Lemma split_strip_single s t : split (strip s) = [t] -> strip s = t.
Proof.
  intros H.
  destruct (strip_ends s) as [E|(c & r & c' & E & Hc & (t' & El) & Hc')].
  - rewrite E in H. discriminate.
  - rewrite E in H. unfold split in H. simpl in H. rewrite Hc in H.
    destruct r as [|x r].
    + simpl in H. injection H as <-. exact E.
    + apply split_from_single in H; [| discriminate |].
      * rewrite E. now rewrite H.
      * intros t2 c2 E2.
        assert (c2 = c') as ->; [|exact Hc'].
        rewrite E in El. rewrite E2 in El.
        change (c :: t2 ++ [c2]) with ((c :: t2) ++ [c2]) in El.
        apply app_inj_tail in El. tauto.
Qed.

End Blanks.

(** ** The claims about [extract_price] *)

Section PriceClaims.
Context {U : UnicodeDB}.

(** C2. For every text, [extract_price] returns, without raising, either
    [None] or a string made of USD or EUR, a space, digits and possibly a dot
    and exactly two digits, which the pattern [^(USD|EUR) \d+(\.\d{2})?$]
    matches in full. *)
Theorem extract_price_shape (text : str) :
  extract_price text = Returns None \/
  exists out, extract_price text = Returns (Some out) /\
              price_text out /\ fullmatch PRICE_TEXT_RE out <> None.
Proof.
  destruct (extract_price_cases text) as [H|(cur & w & Hcur & Hw & H)]; [now left|].
  right. eexists. split; [exact H|].
  pose proof (amount_price_text Hcur Hw) as P.
  split; [exact P | apply price_text_fullmatch, P].
Qed.

(** C3. The comma that [PRICE_RE] accepts in the place of the decimal dot is
    deleted, not turned into a dot: "$12,34" gives "USD 1234" while "$12.34"
    gives "USD 12.34"; and an amount with a thousands separator is cut at the
    separator's group: "$12,345" gives "USD 1234", "$1,234.56" no price. *)
Theorem extract_price_comma :
  extract_price (py "$12,34") = Returns (Some (py "USD 1234")) /\
  extract_price (py "$12.34") = Returns (Some (py "USD 12.34")) /\
  extract_price (py "$12,345") = Returns (Some (py "USD 1234")) /\
  extract_price (py "$1,234.56") = Returns None.
Proof. repeat split; vm_compute; reflexivity. Qed.

End PriceClaims.

(** ** The claims about [infer_buyer_label] and [extract_ship_dests] *)

Section LabelClaims.
Context {U : UnicodeDB}.

Lemma no_label_in_empty_text :
  any_search LABEL_YES_PATTERNS [] = false /\ any_search LABEL_NO_PATTERNS [] = false.
Proof. split; reflexivity. Qed.

Lemma infer_buyer_label_eq text :
  infer_buyer_label text =
  if any_search LABEL_YES_PATTERNS text then Some (py "yes")
  else if any_search LABEL_NO_PATTERNS text then Some (py "no")
  else None.
Proof. destruct text; reflexivity. Qed.

(** The answer by what the two loops find: "yes" when the first finds a
    pattern, "no" when only the second does, [None] when neither does. *)
Lemma infer_buyer_label_cases (text : str) :
  let yes := any_search LABEL_YES_PATTERNS text in
  let no := any_search LABEL_NO_PATTERNS text in
  In (infer_buyer_label text) [Some (py "yes"); Some (py "no"); None] /\
  (yes = true -> infer_buyer_label text = Some (py "yes")) /\
  (yes = false -> no = true -> infer_buyer_label text = Some (py "no")) /\
  (infer_buyer_label text = None <-> yes = false /\ no = false).
Proof.
  intros yes no. rewrite infer_buyer_label_eq. fold yes no.
  destruct yes, no; simpl; repeat split; auto; try discriminate;
    intros [? ?]; discriminate.
Qed.

End LabelClaims.

Section DestClaims.
Context {U : UnicodeDB}.

Lemma str_eqb_eq a b : str_eqb a b = true <-> a = b.
Proof.
  unfold str_eqb. destruct (list_eq_dec N.eq_dec a b); split; intros; congruence.
Qed.

Lemma existsb_str_eqb_false x out : ~ In x out -> existsb (str_eqb x) out = false.
Proof.
  intros H. destruct (existsb (str_eqb x) out) eqn:E; [|reflexivity].
  apply existsb_exists in E. destruct E as (y & Hy & E).
  apply str_eqb_eq in E. subst y. contradiction.
Qed.

(** The loop that drops repeated labels changes nothing in a list without
    repetition. *)
Lemma dedup_into_nodup found : forall out,
  NoDup (out ++ found) -> dedup_into out found = out ++ found.
Proof.
  induction found as [|x found IH]; intros out H; simpl.
  - now rewrite app_nil_r.
  - rewrite existsb_str_eqb_false.
    + rewrite IH; rewrite <- app_assoc; [reflexivity | exact H].
    + apply NoDup_remove_2 in H. intros Hin. apply H, in_or_app. auto.
Qed.

Lemma NoDup_map_filter {A B} (f : A -> B) (keep : A -> bool) l :
  NoDup (map f l) -> NoDup (map f (filter keep l)).
Proof.
  induction l as [|a l IH]; simpl; intros H; [constructor|].
  inversion H as [|? ? Hn Hd]; subst.
  destruct (keep a); simpl; [constructor|]; auto.
  intros Hin. apply Hn. apply in_map_iff in Hin. destruct Hin as (y & E & Hy).
  apply filter_In in Hy. apply in_map_iff. exists y. tauto.
Qed.

Lemma dest_labels : map fst SHIP_DEST_HINTS = DEST_TAGS.
Proof. reflexivity. Qed.

Lemma dest_tags_nodup : NoDup DEST_TAGS.
Proof.
  vm_compute. repeat constructor; simpl; intuition discriminate.
Qed.

(** C5. The tags found are the declared tags whose hint matches, in the order
    of declaration and without repetition; [extract_ship_dests] returns them
    joined with ", ", and returns [None] exactly when no hint matches. *)
Theorem extract_ship_dests_spec (text : str) :
  let tags := map fst (filter (fun h => found (snd h) text) SHIP_DEST_HINTS) in
  map fst SHIP_DEST_HINTS = DEST_TAGS /\
  NoDup tags /\
  extract_ship_dests text =
    match tags with
    | [] => None
    | _ => Some (join (py ", ") tags)
    end /\
  (extract_ship_dests text = None <->
   forall h, In h SHIP_DEST_HINTS -> search (snd h) text = None).
Proof.
  intros tags.
  assert (Hnd : NoDup tags).
  { apply NoDup_map_filter. rewrite dest_labels. apply dest_tags_nodup. }
  assert (Heq : extract_ship_dests text =
                match tags with [] => None | _ => Some (join (py ", ") tags) end).
  { destruct text as [|c text]; [reflexivity|].
    unfold extract_ship_dests, found_dests. fold tags.
    destruct tags as [|t tags'] eqn:E; [reflexivity|].
    now rewrite (dedup_into_nodup (t :: tags') []). }
  split; [apply dest_labels|]. split; [exact Hnd|]. split; [exact Heq|].
  rewrite Heq. split.
  - intros H h Hin. destruct tags as [|t tags'] eqn:E; [|discriminate].
    destruct (search (snd h) text) eqn:S; [|reflexivity]. exfalso.
    assert (Hh : In (fst h) tags).
    { subst tags. apply in_map, filter_In. split; [exact Hin|].
      unfold found. now rewrite S. }
    rewrite E in Hh. destruct Hh.
  - intros H. destruct tags as [|t tags'] eqn:E; [reflexivity|]. exfalso.
    assert (Hin : In t tags) by (rewrite E; simpl; auto).
    subst tags. apply in_map_iff in Hin. destruct Hin as (h & _ & Hf).
    apply filter_In in Hf. destruct Hf as [Hh Hf]. unfold found in Hf.
    now rewrite (H h Hh) in Hf.
Qed.

End DestClaims.

(** ** The claims about [extract_brand_model] *)

Section BrandClaims.
Context {U : UnicodeDB}.


End BrandClaims.

(** ** The claims about the location *)

Section LocationClaims.
Context {U : UnicodeDB}.

(** Neither test of the loop passes a tag that strips to the empty string, so
    that the [or] between the title's and the body's location falls through
    to the body only when the title gives [None]. *)
Lemma first_location_nonempty tags tt : first_location tags = Some tt -> tt <> [].
Proof.
  induction tags as [|t tags IH]; cbn [first_location]; [discriminate|].
  destruct (existsb (fun x => contains (upper (strip t)) x) LOCATION_WORDS) eqn:E1.
  - intros [= <-] E0. rewrite E0 in E1. discriminate E1.
  - destruct (fullmatch STATE_CODE (strip t)) eqn:E2; [|exact IH].
    intros [= <-] E0. rewrite E0 in E2. discriminate E2.
Qed.

(** The first tag that passes the test on the words is returned, whatever the
    later tags are. *)
Lemma first_tag_returned (title t : str) (tags : list str) :
  findall TITLE_TAG_RE "tag" title = t :: tags ->
  existsb (fun x => contains (upper (strip t)) x) LOCATION_WORDS = true ->
  extract_location_from_title title = Some (strip t).
Proof.
  intros Ht Hw. unfold extract_location_from_title. rewrite Ht.
  cbn [first_location]. now rewrite Hw.
Qed.

End LocationClaims.

(** ** The first tag of a title *)

Section LeadingTag.
Context {U : UnicodeDB}.

Lemma last_cons {A} (l : list A) : forall a d, last (a :: l) d = last l a.
Proof.
  induction l as [|x l IH]; intros a d; [reflexivity|].
  change (last (a :: x :: l) d) with (last (x :: l) d). now rewrite !IH.
Qed.

Lemma at_char_take ok before c s cp :
  ok c = true -> at_char ok (MState before (c :: s) cp) = [MState (Some c) s cp].
Proof. intros H. unfold at_char, step. cbn [rest caps]. now rewrite H. Qed.

Lemma at_char_stop ok before r cp :
  match r with [] => True | c :: _ => ok c = false end ->
  at_char ok (MState before r cp) = [].
Proof.
  intros H. unfold at_char. cbn [rest]. destruct r; [reflexivity|]. now rewrite H.
Qed.

(** A greedy run takes every character of the class that stands ahead before
    it tries a shorter run. *)
Lemma upto_greedy_first ok w : forall n before r cp,
  Forall (fun c => ok c = true) w ->
  match r with [] => True | c :: _ => ok c = false end ->
  length w <= n ->
  exists others,
    upto (at_char ok) n (MState before (w ++ r) cp)
    = MState (last (map Some w) before) r cp :: others.
Proof.
  induction w as [|c w IH]; intros n before r cp F Hstop L.
  - exists []. destruct n as [|n]; [reflexivity|].
    cbn [upto app]. now rewrite (@at_char_stop ok before r cp Hstop).
  - inversion F as [|? ? Hc F']; subst.
    destruct n as [|n]; [simpl in L; lia|].
    destruct (IH n (Some c) r cp F' Hstop ltac:(simpl in L; lia)) as (others & E).
    cbn [upto app]. rewrite (@at_char_take ok before c (w ++ r) cp Hc).
    cbn [flat_map]. rewrite E, app_nil_r.
    cbn [map]. rewrite last_cons. eexists. reflexivity.
Qed.

Lemma not_close_spec c : not_close c = true <-> c <> 93%N.
Proof.
  unfold not_close. cbn [existsb item_match]. rewrite char_match_exact, orb_false_r.
  rewrite negb_true_iff, N.eqb_neq. split; intros H E; apply H; congruence.
Qed.

(** At an opening bracket followed by a non-empty body without a closing
    bracket and then by a closing bracket, [TITLE_TAG_RE] matches, and the
    first match takes the body as the tag. *)
Lemma match_here_tag before body behind :
  body <> [] -> ~ In 93%N body ->
  match_here TITLE_TAG_RE before ([91%N] ++ body ++ [93%N] ++ behind)
  = Some (MState (Some 93%N) behind [("tag"%string, body)]).
Proof.
  intros Hne Hno. destruct body as [|c body]; [congruence|].
  assert (Hc : not_close c = true) by (apply not_close_spec; intros ->; apply Hno; simpl; auto).
  assert (F : Forall (fun x => not_close x = true) body).
  { apply Forall_forall. intros x Hx. apply not_close_spec. intros ->.
    apply Hno. simpl. auto. }
  destruct (@upto_greedy_first not_close body
              (length (c :: body ++ [93%N] ++ behind)) (Some c) ([93%N] ++ behind) [] F)
    as (others & E).
  { reflexivity. }
  { simpl. rewrite !length_app. simpl. lia. }
  unfold match_here, TITLE_TAG_RE. cbn [ignorecase tree seq].
  change (matches false (Cat (Lit 91) (Cat (Grp "tag" TAG_BODY) (Lit 93)))
            (MState before ([91%N] ++ (c :: body) ++ [93%N] ++ behind) []))
    with (flat_map (matches false (Lit 93))
            (map (fun st' => MState (prev st') (rest st')
                               (("tag"%string,
                                 consumed (MState (Some 91%N) ((c :: body) ++ [93%N] ++ behind) []) st')
                                :: caps st'))
                 (flat_map (upto (at_char not_close)
                                 (length (c :: body ++ [93%N] ++ behind)))
                           (flat_map (fun x => [x])
                              (at_char not_close
                                 (MState (Some 91%N) ((c :: body) ++ [93%N] ++ behind) [])))))
          ++ []).
  cbn [app]. rewrite (@at_char_take not_close (Some 91%N) c (body ++ 93%N :: behind) [] Hc).
  cbn [flat_map app]. cbn [app] in E. rewrite E, !app_nil_r.
  cbn [map flat_map rest prev caps]. rewrite (consumed_ahead _ _ (c :: body)) by reflexivity.
  cbn [matches].
  rewrite (@at_char_take (char_match false 93) _ 93%N behind _ eq_refl).
  reflexivity.
Qed.

Lemma match_here_no_open p before c s :
  tree p = tree TITLE_TAG_RE -> ignorecase p = false -> c <> 91%N ->
  match_here p before (c :: s) = None.
Proof.
  intros Et Ei Hc. unfold match_here. rewrite Et, Ei.
  change (matches false (tree TITLE_TAG_RE) (MState before (c :: s) []))
    with (flat_map (matches false (Cat (Grp "tag" TAG_BODY) (Lit 93)))
                   (at_char (char_match false 91) (MState before (c :: s) []))).
  rewrite at_char_stop; [reflexivity|].
  rewrite char_match_exact. now apply N.eqb_neq.
Qed.

(** The first tag [findall] returns is the first bracket tag of the title:
    the body between the first opening bracket and the closing bracket,
    when that body is not empty. *)
Lemma findall_first_tag ahead_of body behind :
  ~ In 91%N ahead_of -> body <> [] -> ~ In 93%N body ->
  exists tags,
    findall TITLE_TAG_RE "tag" (ahead_of ++ [91%N] ++ body ++ [93%N] ++ behind)
    = body :: tags.
Proof.
  intros Hpre Hne Hno. unfold findall. generalize (@None char).
  pose proof (fun before => match_here_tag before behind Hne Hno) as Htag.
  set (tagged := [91%N] ++ body ++ [93%N] ++ behind) in *.
  assert (Et : exists s, tagged = 91%N :: s) by (eexists; reflexivity).
  clearbody tagged.
  induction ahead_of as [|c pre IH]; intros before.
  - destruct Et as (s & Et). cbn [app]. rewrite Et. cbn [findall_from].
    rewrite <- Et, Htag. cbn [caps lookup]. rewrite String.eqb_refl.
    eexists. reflexivity.
  - change ((c :: pre) ++ tagged) with (c :: (pre ++ tagged)). cbn [findall_from].
    rewrite (@match_here_no_open TITLE_TAG_RE before c (pre ++ tagged) eq_refl eq_refl)
      by (intros ->; apply Hpre; simpl; auto).
    apply IH. intros H. apply Hpre. simpl. auto.
Qed.

End LeadingTag.

Section FirstTagClaim.
Context {U : UnicodeDB}.

(** C9. A title whose first bracket tag, stripped and upper-cased, contains
    one of USA, US, CAN, EU, UK, AUS, NZ anywhere, inside a word as well, has
    that tag returned as its location, whatever follows the tag.  The first
    bracket tag is given as the text: no opening bracket before it, a body
    that is not empty and holds no closing bracket. *)
Theorem first_tag_containing_word_wins (ahead_of body behind : str) :
  ~ In 91%N ahead_of -> body <> [] -> ~ In 93%N body ->
  existsb (fun x => contains (upper (strip body)) x) LOCATION_WORDS = true ->
  extract_location_from_title (ahead_of ++ [91%N] ++ body ++ [93%N] ++ behind)
  = Some (strip body).
Proof.
  intros Hpre Hne Hno Hw.
  destruct (findall_first_tag ahead_of behind Hpre Hne Hno) as (tags & Ht).
  exact (first_tag_returned _ Ht Hw).
Qed.

End FirstTagClaim.

(** The title "[MUST SELL] [USA-CA] Omega": its first tag contains US inside
    MUST, and is returned instead of the tag that names the place. *)
Lemma must_sell_is_a_location :
  (~ In 91%N []) /\ py "MUST SELL" <> [] /\ (~ In 93%N (py "MUST SELL")) /\
  existsb (fun x => contains (upper (U := plain_db) (strip (U := plain_db) (py "MUST SELL"))) x)
          LOCATION_WORDS = true /\
  extract_location_from_title (U := plain_db) (py "[MUST SELL] [USA-CA] Omega")
  = Some (py "MUST SELL").
Proof.
  assert (H1 : ~ In 91%N []) by (intros []).
  assert (H2 : py "MUST SELL" <> []) by discriminate.
  assert (H3 : ~ In 93%N (py "MUST SELL")).
  { vm_compute. intuition discriminate. }
  assert (H4 : existsb (fun x => contains (upper (U := plain_db)
                                     (strip (U := plain_db) (py "MUST SELL"))) x)
                       LOCATION_WORDS = true) by reflexivity.
  split; [exact H1|]. split; [exact H2|]. split; [exact H3|]. split; [exact H4|].
  exact (@first_tag_containing_word_wins plain_db [] (py "MUST SELL")
           (py " [USA-CA] Omega") H1 H2 H3 H4).
Defined.

(** ** The phrases of the label patterns *)

Section LabelPhrases.
Context {U : UnicodeDB}.

Lemma last_some_cons (c : char) (w : str) (b : option char) :
  last (map Some (c :: w)) b = last (map Some w) (Some c).
Proof. cbn [map]. apply last_cons. Qed.

Lemma last_some_app (w1 w2 : str) : forall b,
  last (map Some (w1 ++ w2)) b = last (map Some w2) (last (map Some w1) b).
Proof.
  induction w1 as [|c w1 IH]; intros b; [reflexivity|].
  change ((c :: w1) ++ w2) with (c :: (w1 ++ w2)).
  now rewrite !last_some_cons, IH.
Qed.

Lemma state_eq (a b : mstate) :
  prev a = prev b -> rest a = rest b -> caps a = caps b -> a = b.
Proof. destruct a, b; simpl; congruence. Qed.

(** A set of single characters accepts the characters its members accept. *)
Lemma anyof_chars items c :
  forallb (fun i => match i with SChr _ => true | _ => false end) items = true ->
  (existsb (fun i => item_match true i c) items = true <->
   exists p,
     In [p] (flat_map (fun i => match i with SChr c => [[c]] | _ => [] end) items) /\
     char_match true p c = true).
Proof.
  induction items as [|i items IH]; cbn [forallb existsb flat_map].
  - intros _. split; [discriminate | intros (p & [] & _)].
  - intros H. apply andb_true_iff in H. destruct H as [Hi Hr].
    destruct i as [q|lo hi|k]; try discriminate.
    cbn [item_match app]. rewrite orb_true_iff, (IH Hr). split.
    + intros [H|(p & Hp & Hc)].
      * exists q. split; [left; reflexivity | exact H].
      * exists p. split; [right; exact Hp | exact Hc].
    + intros (p & [E|Hp] & Hc).
      * left. congruence.
      * right. exists p. auto.
Qed.

(** What a literal pattern matches under [re.IGNORECASE]: one of its phrases,
    character by character, and nothing else. *)
Lemma literal_matches r :
  literal r = true ->
  forall st st',
    In st' (matches true r st) <->
    exists ph w,
      In ph (phrases r) /\ caseless ph w /\ rest st = w ++ rest st' /\
      prev st' = last (map Some w) (prev st) /\ caps st' = caps st.
Proof.
  induction r as [p|k|items|items| | |a IHa b IHb|a IHa b IHb|lo hi a IHa|name a IHa];
    cbn [literal]; intros L st st'; try discriminate.
  - cbn [matches phrases]. split.
    + intros H. apply at_char_inv in H. destruct H as (c & Hc & E & C & P).
      exists [p], [c]. split; [left; reflexivity|].
      split; [repeat constructor; exact Hc | auto].
    + intros (ph & w & [<-|[]] & Hw & E & P & C).
      inversion Hw as [|? c ? w' Hc Hw']; subst. inversion Hw'; subst.
      unfold at_char, step. rewrite E. cbn [app]. rewrite Hc. left.
      apply state_eq; cbn [prev rest caps]; auto.
  - cbn [matches phrases]. split.
    + intros H. apply at_char_inv in H. destruct H as (c & Hc & E & C & P).
      apply (anyof_chars items c L) in Hc. destruct Hc as (p & Hp & Hc).
      exists [p], [c]. split; [exact Hp|].
      split; [repeat constructor; exact Hc | auto].
    + intros (ph & w & Hph & Hw & E & P & C).
      apply in_flat_map in Hph. destruct Hph as (i & Hi & Hph).
      destruct i as [q|lo hi|k]; try (destruct Hph; fail).
      destruct Hph as [<-|[]].
      inversion Hw as [|? c ? w' Hc Hw']; subst. inversion Hw'; subst.
      assert (Hok : existsb (fun i => item_match true i c) items = true).
      { apply (anyof_chars items c L). exists q. split; [|exact Hc].
        apply in_flat_map. exists (SChr q). split; [exact Hi | left; reflexivity]. }
      unfold at_char, step. rewrite E. cbn [app]. rewrite Hok. left.
      apply state_eq; cbn [prev rest caps]; auto.
  - cbn [matches phrases]. split.
    + intros [<-|[]]. exists [], [].
      split; [left; reflexivity|]. split; [constructor|]. auto.
    + intros (ph & w & [<-|[]] & Hw & E & P & C). inversion Hw; subst.
      left. apply state_eq; auto.
  - apply andb_true_iff in L. destruct L as [La Lb].
    rewrite in_cat. cbn [phrases]. split.
    + intros (mid & Hm & Hb).
      apply (IHa La) in Hm. destruct Hm as (u & w1 & Hu & Hw1 & E1 & P1 & C1).
      apply (IHb Lb) in Hb. destruct Hb as (v & w2 & Hv & Hw2 & E2 & P2 & C2).
      exists (u ++ v), (w1 ++ w2). split; [|split; [|split; [|split]]].
      * apply in_flat_map. exists u. split; [exact Hu|]. now apply in_map.
      * now apply Forall2_app.
      * rewrite E1, E2, app_assoc. reflexivity.
      * rewrite P2, P1. symmetry. apply last_some_app.
      * congruence.
    + intros (ph & w & Hph & Hw & E & P & C).
      apply in_flat_map in Hph. destruct Hph as (u & Hu & Hph).
      apply in_map_iff in Hph. destruct Hph as (v & <- & Hv).
      apply Forall2_app_inv_l in Hw. destruct Hw as (w1 & w2 & Hw1 & Hw2 & ->).
      exists (MState (last (map Some w1) (prev st)) (w2 ++ rest st') (caps st)).
      split.
      * apply (IHa La). exists u, w1. cbn [prev rest caps].
        repeat split; auto. now rewrite E, <- app_assoc.
      * apply (IHb Lb). exists v, w2. cbn [prev rest caps].
        repeat split; auto. now rewrite P, last_some_app.
  - apply andb_true_iff in L. destruct L as [La Lb].
    rewrite in_alt, (IHa La), (IHb Lb). cbn [phrases]. split.
    + intros [(ph & w & Hph & H)|(ph & w & Hph & H)]; exists ph, w;
        (split; [apply in_or_app; auto | exact H]).
    + intros (ph & w & Hph & H). apply in_app_or in Hph.
      destruct Hph as [Hph|Hph]; [left | right]; exists ph, w; auto.
  - destruct lo as [|lo]; [|discriminate].
    destruct hi as [[|[|hi]]|]; try discriminate.
    change (Rep 0 (Some 1) a) with (Opt a). rewrite in_opt, (IHa L).
    change (phrases (Opt a)) with (phrases a ++ [[]]). split.
    + intros [(ph & w & Hph & H)| ->].
      * exists ph, w. split; [apply in_or_app; auto | exact H].
      * exists [], []. split; [apply in_or_app; right; left; reflexivity|].
        split; [constructor|]. auto.
    + intros (ph & w & Hph & Hw & E & P & C). apply in_app_or in Hph.
      destruct Hph as [Hph|[<-|[]]].
      * left. exists ph, w. auto.
      * right. inversion Hw; subst. apply state_eq; auto.
Qed.

(** Between two [\b]. *)
Lemma bounded_matches r st st' :
  In st' (matches true (bounded r) st) <->
  at_boundary st = true /\ In st' (matches true r st) /\ at_boundary st' = true.
Proof.
  change (bounded r) with (Cat WordB (Cat r WordB)).
  rewrite in_cat. split.
  - intros (m1 & H1 & H). apply in_cat in H. destruct H as (m2 & H2 & H3).
    cbn [matches] in H1, H3.
    destruct (at_boundary st) eqn:B1; [|destruct H1]. destruct H1 as [<-|[]].
    destruct (at_boundary m2) eqn:B2; [|destruct H3]. destruct H3 as [<-|[]].
    auto.
  - intros (B1 & H & B2). exists st. split.
    + cbn [matches]. rewrite B1. left; reflexivity.
    + apply in_cat. exists st'. split; [exact H|].
      cbn [matches]. rewrite B2. left; reflexivity.
Qed.

(** [search] finds the pattern exactly when the pattern matches at some point
    of the text, the character before the point being the one of the text. *)
Lemma search_from_somewhere p s : forall before pos,
  search_from p before s pos <> None <->
  exists x s',
    s = x ++ s' /\
    matches (ignorecase p) (tree p) (MState (last (map Some x) before) s' []) <> [].
Proof.
  assert (Hm : forall b t, match_here p b t <> None <->
                           matches (ignorecase p) (tree p) (MState b t []) <> []).
  { intros b t. unfold match_here.
    destruct (matches (ignorecase p) (tree p) (MState b t [])); simpl;
      split; congruence. }
  induction s as [|c s IH]; intros before pos; cbn [search_from].
  - destruct (match_here _ _ _) as [st|] eqn:M.
    + split; [intros _|discriminate]. exists [], []. split; [reflexivity|].
      apply (proj1 (Hm before [])). rewrite M. discriminate.
    + split; [congruence|]. intros (x & s' & E & H).
      symmetry in E. apply app_eq_nil in E. destruct E as [-> ->].
      apply (proj2 (Hm before [])) in H. congruence.
  - destruct (match_here _ _ _) as [st|] eqn:M.
    + split; [intros _|discriminate]. exists [], (c :: s). split; [reflexivity|].
      apply (proj1 (Hm before (c :: s))). rewrite M. discriminate.
    + rewrite IH. split.
      * intros (x & s' & E & H). exists (c :: x), s'. split; [now rewrite E|].
        now rewrite last_some_cons.
      * intros (x & s' & E & H). destruct x as [|c' x].
        -- cbn [app] in E. subst s'. apply (proj2 (Hm before (c :: s))) in H. congruence.
        -- injection E as <- E. exists x, s'. split; [exact E|].
           now rewrite last_some_cons in H.
Qed.

Lemma found_somewhere p s :
  found p s = true <->
  exists x s',
    s = x ++ s' /\
    matches (ignorecase p) (tree p) (MState (char_before x) s' []) <> [].
Proof.
  unfold found, search, char_before. rewrite <- (search_from_somewhere p s None 0).
  destruct (search_from p None s 0); split; congruence.
Qed.

(** A label pattern is found exactly where one of its phrases stands. *)
Lemma found_bounded r text :
  literal r = true ->
  (found (Pattern true (bounded r)) text = true <->
   exists ph, In ph (phrases r) /\ stands ph text).
Proof.
  intros L. rewrite found_somewhere. cbn [ignorecase tree]. split.
  - intros (x & s' & E & H).
    destruct (matches true (bounded r) (MState (char_before x) s' [])) as [|st' l] eqn:M;
      [congruence|].
    assert (Hin : In st' (matches true (bounded r) (MState (char_before x) s' [])))
      by (rewrite M; left; reflexivity).
    apply bounded_matches in Hin. destruct Hin as (B1 & Hin & B2).
    apply (literal_matches r L) in Hin.
    destruct Hin as (ph & w & Hph & Hw & Er & P & _). cbn [prev rest] in Er, P.
    exists ph. split; [exact Hph|]. exists x, w, (rest st').
    split; [now rewrite E, Er|]. split; [exact Hw|]. split.
    + unfold word_edge. rewrite <- Er. exact B1.
    + unfold word_edge, char_before. rewrite last_some_app.
      unfold at_boundary in B2. rewrite P in B2. exact B2.
  - intros (ph & Hph & x & w & y & E & Hw & B1 & B2).
    exists x, (w ++ y). split; [exact E|].
    assert (Hin : In (MState (last (map Some w) (char_before x)) y [])
                     (matches true (bounded r) (MState (char_before x) (w ++ y) []))).
    { apply bounded_matches. split; [exact B1|]. split.
      - apply (literal_matches r L). exists ph, w. cbn [prev rest caps]. auto.
      - unfold word_edge, char_before in B2. rewrite last_some_app in B2. exact B2. }
    intros E0. rewrite E0 in Hin. destruct Hin.
Qed.

Lemma says_yes_found text :
  says_yes text <-> any_search LABEL_YES_PATTERNS text = true.
Proof.
  set (r1 := seq [word "buyer ";
                  alts [word "provides"; word "supplies"; word "sends"];
                  Lit 32; a_label]).
  set (r2 := seq [word "buyer"; AnyOf [SChr 39; SChr right_quote]; word "s label"]).
  change LABEL_YES_PATTERNS with [Pattern true (bounded r1); Pattern true (bounded r2)].
  unfold any_search. cbn [existsb]. rewrite orb_false_r, orb_true_iff.
  rewrite (found_bounded r1 text eq_refl), (found_bounded r2 text eq_refl).
  unfold says_yes. change YES_PHRASES with (phrases r1 ++ phrases r2). split.
  - intros (ph & Hph & H). apply in_app_or in Hph.
    destruct Hph; [left | right]; exists ph; auto.
  - intros [(ph & Hph & H)|(ph & Hph & H)]; exists ph;
      (split; [apply in_or_app; auto | exact H]).
Qed.

Lemma says_no_found text :
  says_no text <-> any_search LABEL_NO_PATTERNS text = true.
Proof.
  set (r1 := seq [word "seller "; alts [word "provides"; word "supplies"];
                  Lit 32; a_label]).
  set (r2 := word "shipping included").
  set (r3 := word "I will ship").
  change LABEL_NO_PATTERNS
    with [Pattern true (bounded r1); Pattern true (bounded r2); Pattern true (bounded r3)].
  unfold any_search. cbn [existsb]. rewrite orb_false_r, !orb_true_iff.
  rewrite (found_bounded r1 text eq_refl), (found_bounded r2 text eq_refl),
          (found_bounded r3 text eq_refl).
  unfold says_no. change NO_PHRASES with (phrases r1 ++ phrases r2 ++ phrases r3).
  split.
  - intros (ph & Hph & H). apply in_app_or in Hph.
    destruct Hph as [Hph|Hph]; [left; exists ph; auto|].
    apply in_app_or in Hph.
    destruct Hph; [right; left | right; right]; exists ph; auto.
  - intros [(ph & Hph & H)|[(ph & Hph & H)|(ph & Hph & H)]]; exists ph;
      (split; [|exact H]); apply in_or_app; auto; right; apply in_or_app; auto.
Qed.

(** C4. [infer_buyer_label] returns one of "yes", "no" and [None] (the
    unknown answer) for every text.  It returns "yes" for every text in which
    a yes-phrase stands, a no-phrase standing in it or not; "no" when a
    no-phrase stands in it and no yes-phrase does; and [None] exactly when no
    phrase of either set stands in it. *)
Theorem infer_buyer_label_total (text : str) :
  In (infer_buyer_label text) [Some (py "yes"); Some (py "no"); None] /\
  (says_yes text -> infer_buyer_label text = Some (py "yes")) /\
  (~ says_yes text -> says_no text -> infer_buyer_label text = Some (py "no")) /\
  (infer_buyer_label text = None <-> ~ says_yes text /\ ~ says_no text).
Proof.
  destruct (infer_buyer_label_cases text) as (Hin & Hyes & Hno & Hnone).
  cbv zeta in Hyes, Hno, Hnone.
  rewrite !says_yes_found, !says_no_found.
  split; [exact Hin|]. split; [exact Hyes|]. split.
  - intros Hy. apply Hno. now destruct (any_search LABEL_YES_PATTERNS text).
  - rewrite Hnone.
    destruct (any_search LABEL_YES_PATTERNS text), (any_search LABEL_NO_PATTERNS text);
      split; intros [H1 H2]; split; congruence.
Qed.

End LabelPhrases.

(** The text "Buyer provides a label, shipping included": a yes-phrase and a
    no-phrase stand in it, and the answer is "yes". *)
Lemma both_phrases_give_yes :
  says_yes (U := plain_db) (py "Buyer provides a label, shipping included") /\
  says_no (U := plain_db) (py "Buyer provides a label, shipping included") /\
  infer_buyer_label (U := plain_db) (py "Buyer provides a label, shipping included")
  = Some (py "yes").
Proof.
  assert (Hy : says_yes (U := plain_db) (py "Buyer provides a label, shipping included")).
  { exists (py "buyer provides a label"). split; [simpl; tauto|].
    exists [], (py "Buyer provides a label"), (py ", shipping included").
    split; [reflexivity|]. split; [repeat constructor|]. split; reflexivity. }
  assert (Hn : says_no (U := plain_db) (py "Buyer provides a label, shipping included")).
  { exists (py "shipping included"). split; [simpl; tauto|].
    exists (py "Buyer provides a label, "), (py "shipping included"), [].
    split; [reflexivity|]. split; [repeat constructor|]. split; reflexivity. }
  split; [exact Hy|]. split; [exact Hn|].
  exact (proj1 (proj2 (@infer_buyer_label_total plain_db
                         (py "Buyer provides a label, shipping included"))) Hy).
Defined.

(** ** The claims about the loop *)

Section LoopClaims.
Context {U : UnicodeDB}.
Variable strftime_ymd : Z -> str.

(** The body of the loop always builds a row, each field from its extractor. *)
Lemma build_row_returns (p : post) :
  exists price,
    extract_price (post_text p) = Returns price /\
    build_row strftime_ymd p =
    Returns (Row (fst (extract_brand_model (or_empty (title p))))
                 (snd (extract_brand_model (or_empty (title p))))
                 price
                 (infer_buyer_label (post_text p))
                 (py_or (extract_location_from_title (or_empty (title p)))
                        (extract_location_from_title (or_empty (selftext p))))
                 (extract_ship_dests (post_text p))
                 (option_map (fun name => py "u/" ++ name) (author p))
                 (strftime_ymd (created p))).
Proof.
  unfold build_row, post_text.
  destruct (extract_brand_model (or_empty (title p))) as [brand model].
  destruct (extract_price_cases (or_empty (title p) ++ [10%N] ++ or_empty (selftext p)))
    as [H|(cur & w & _ & _ & H)]; rewrite H; eexists; split; reflexivity.
Qed.

Lemma collect_from cutoff posts : forall acc,
  exists rows,
    collect strftime_ymd cutoff posts acc
      = Returns (acc ++ rows, skipn (S (length rows)) posts) /\
    Forall2 (fun p r => build_row strftime_ymd p = Returns r)
            (firstn (length rows) posts) rows /\
    Forall (fun p => (cutoff <= created p)%Z) (firstn (length rows) posts) /\
    (forall p, nth_error posts (length rows) = Some p -> (created p < cutoff)%Z).
Proof.
  induction posts as [|p posts IH]; intros acc.
  - exists []. simpl. rewrite app_nil_r. repeat split; auto. discriminate.
  - cbn [collect]. destruct (Z.ltb_spec (created p) cutoff) as [Hold|Hnew].
    + exists []. simpl. rewrite app_nil_r. repeat split; auto.
      intros q [= <-]. exact Hold.
    + destruct (build_row_returns p) as (price & _ & Hrow). rewrite Hrow.
      destruct (IH (acc ++ [Row (fst (extract_brand_model (or_empty (title p))))
                                (snd (extract_brand_model (or_empty (title p))))
                                price
                                (infer_buyer_label (post_text p))
                                (py_or (extract_location_from_title (or_empty (title p)))
                                       (extract_location_from_title (or_empty (selftext p))))
                                (extract_ship_dests (post_text p))
                                (option_map (fun name => py "u/" ++ name) (author p))
                                (strftime_ymd (created p))]))
        as (rows & Hc & Hrows & Hnewer & Hstop).
      eexists (_ :: rows). rewrite Hc, <- app_assoc. cbn [length firstn skipn app].
      repeat split; auto.
Qed.

(** C1. The loop returns one row for each post of the longest prefix of the
    listing whose posts are all at or after the cutoff, in order; the first
    post before the cutoff and the posts behind it give no row, whenever they
    were created: the posts behind it are left unread.  For posts of today, of
    ten days ago and of 200 days ago, and a cutoff between them (six months
    back is 181 to 184 days), the rows are those of the first two posts. *)
Theorem collect_stops_at_cutoff (cutoff : Z) (posts : list post) :
  (exists rows,
     collect strftime_ymd cutoff posts [] = Returns (rows, skipn (S (length rows)) posts) /\
     Forall2 (fun p r => build_row strftime_ymd p = Returns r)
             (firstn (length rows) posts) rows /\
     Forall (fun p => (cutoff <= created p)%Z) (firstn (length rows) posts) /\
     (forall p, nth_error posts (length rows) = Some p -> (created p < cutoff)%Z))
  /\
  (forall now p0 p1 p2 behind,
     created p0 = now -> created p1 = (now - 10 * DAY)%Z ->
     created p2 = (now - 200 * DAY)%Z ->
     (now - 200 * DAY < cutoff <= now - 10 * DAY)%Z ->
     exists r0 r1,
       build_row strftime_ymd p0 = Returns r0 /\
       build_row strftime_ymd p1 = Returns r1 /\
       collect strftime_ymd cutoff (p0 :: p1 :: p2 :: behind) []
         = Returns ([r0; r1], behind)).
Proof.
  split; [apply (collect_from cutoff posts [])|].
  intros now p0 p1 p2 behind H0 H1 H2 Hcut.
  destruct (build_row_returns p0) as (price0 & _ & R0).
  destruct (build_row_returns p1) as (price1 & _ & R1).
  eexists; eexists. split; [exact R0|]. split; [exact R1|].
  unfold DAY in *. cbn [collect].
  destruct (Z.ltb_spec (created p0) cutoff); [lia|]. rewrite R0.
  destruct (Z.ltb_spec (created p1) cutoff); [lia|]. rewrite R1.
  destruct (Z.ltb_spec (created p2) cutoff); [|lia]. reflexivity.
Qed.

(** C10. A row's label field holds what [infer_buyer_label] returns for the
    post's text, which is "yes", "no" or [None] and never a value of its own
    for the unknown answer: when no phrase of either set is found, the empty
    text included, the field is the [None] that the price field holds when no
    price is found. *)
Theorem unknown_label_is_none (p : post) :
  exists r,
    build_row strftime_ymd p = Returns r /\
    buyers_label r = infer_buyer_label (post_text p) /\
    In (buyers_label r) [Some (py "yes"); Some (py "no"); None] /\
    (buyers_label r = None <->
     any_search LABEL_YES_PATTERNS (post_text p) = false /\
     any_search LABEL_NO_PATTERNS (post_text p) = false) /\
    (search PRICE_RE (post_text p) = None -> sale_price r = None) /\
    infer_buyer_label [] = None.
Proof.
  destruct (build_row_returns p) as (price & Hp & Hrow).
  eexists. split; [exact Hrow|]. cbn [buyers_label sale_price].
  destruct (infer_buyer_label_cases (post_text p)) as (Hin & _ & _ & Hnone).
  repeat split; try tauto.
  intros Hs. unfold extract_price in Hp. rewrite Hs in Hp.
  destruct (post_text p); congruence.
Qed.

End LoopClaims.

(** The loop on four posts with the cutoff 180 days back: the rows are those
    of the first two posts, and the post behind the old one, which is newer
    than the cutoff, is left unread: the loop stops at the old post and does
    not filter. *)
Lemma collect_on_four_posts :
  exists r0 r1,
    build_row (U := plain_db) day_number (post_at 0) = Returns r0 /\
    build_row (U := plain_db) day_number (post_at (-10 * DAY)) = Returns r1 /\
    collect (U := plain_db) day_number (-180 * DAY) four_posts []
      = Returns ([r0; r1], [post_at (-5 * DAY)]).
Proof.
  apply (proj2 (@collect_stops_at_cutoff plain_db day_number (-180 * DAY) four_posts)
               0%Z (post_at 0) (post_at (-10 * DAY)) (post_at (-200 * DAY))
               [post_at (-5 * DAY)]);
    vm_compute; intuition discriminate.
Defined.

(** ** The claim about the name of the file *)

Lemma uint_chars_digits d : Forall (fun c => (48 <= c <= 57)%N) (uint_chars d).
Proof. induction d; simpl; constructor; auto; lia. Qed.

Lemma uint_chars_inj d : forall d', uint_chars d = uint_chars d' -> d = d'.
Proof.
  induction d; destruct d'; simpl; intros H; try discriminate; try reflexivity;
    injection H as H; f_equal; auto.
Qed.

Lemma str_of_int_inj a b : str_of_int a = str_of_int b -> a = b.
Proof.
  unfold str_of_int. intros H. apply DecimalZ.to_int_inj.
  destruct (Z.to_int a) as [d|d], (Z.to_int b) as [d'|d'].
  - f_equal. now apply uint_chars_inj.
  - exfalso. pose proof (uint_chars_digits d) as F. rewrite H in F.
    inversion F; subst. lia.
  - exfalso. pose proof (uint_chars_digits d') as F. rewrite <- H in F.
    inversion F; subst. lia.
  - f_equal. injection H as H. now apply uint_chars_inj.
Qed.

(** The name of the file tells the number of months. *)
Lemma out_name_inj a b : out_name a = out_name b -> a = b.
Proof.
  unfold out_name. intros H. apply app_inv_head, app_inv_tail in H.
  now apply str_of_int_inj.
Qed.

Section ExportClaims.
Context {U : UnicodeDB}.
Variable strftime_ymd : Z -> str.
Variable minus_months : Z -> Z -> Z.

(** C8, as the code has it.  A run that completes has written a file named
    watchexchange_last_<N>_months.csv, where <N> is the number of months in
    decimal, and no other number of months gives that name; the script, whose
    number of months is 6, writes watchexchange_last_6_months.csv. *)
Theorem export_file_name (months now : Z) (feed : list post) (name : str) (n : nat) :
  export strftime_ymd minus_months months now feed = Returns (name, n) ->
  name = py "watchexchange_last_" ++ str_of_int months ++ py "_months.csv" /\
  (forall months', out_name months' = name -> months' = months) /\
  (months = MONTHS_BACK -> name = py "watchexchange_last_6_months.csv").
Proof.
  unfold export.
  destruct (collect strftime_ymd (minus_months now months) (firstn LIMIT feed) [])
    as [[rows unread]|e]; [|discriminate].
  destruct rows as [|r rows]; [discriminate|].
  intros [= <- _]. split; [reflexivity|]. split.
  - intros months' H. now apply out_name_inj.
  - intros ->. reflexivity.
Qed.

End ExportClaims.

(** A run of the script on a feed of one post: it completes, and the file it
    writes is not named listings_last_6_months.csv. *)
Lemma main_writes_watchexchange_name :
  main (U := plain_db) day_number thirty_day_months 0 one_post_feed
    = Returns (py "watchexchange_last_6_months.csv", 1)
  /\ str_eqb (py "watchexchange_last_6_months.csv") LISTINGS_NAME = false.
Proof. split; vm_compute; reflexivity. Qed.

(** The same run, through the statement about every run. *)
Lemma export_file_name_on_one_post :
  export (U := plain_db) day_number thirty_day_months MONTHS_BACK 0 one_post_feed
    = Returns (py "watchexchange_last_6_months.csv", 1)
  /\ py "watchexchange_last_6_months.csv"
     = py "watchexchange_last_" ++ str_of_int MONTHS_BACK ++ py "_months.csv"
  /\ (forall months', out_name months' = py "watchexchange_last_6_months.csv"
                      -> months' = MONTHS_BACK)
  /\ (MONTHS_BACK = MONTHS_BACK -> py "watchexchange_last_6_months.csv"
                                   = py "watchexchange_last_6_months.csv").
Proof.
  split; [vm_compute; reflexivity|].
  apply (@export_file_name plain_db day_number thirty_day_months
           MONTHS_BACK 0 one_post_feed (py "watchexchange_last_6_months.csv") 1).
  vm_compute. reflexivity.
Defined.

(** * Further properties of the script *)

(** ** The loop on an ordered listing, and the end of a run *)

Section LoopFacts.
Context {U : UnicodeDB}.
Variable strftime_ymd : Z -> str.
Variable minus_months : Z -> Z -> Z.

Lemma collect_ordered cutoff posts : forall acc,
  newest_first posts ->
  exists rows unread,
    collect strftime_ymd cutoff posts acc = Returns (acc ++ rows, unread) /\
    Forall2 (fun p r => build_row strftime_ymd p = Returns r) (within cutoff posts) rows.
Proof.
  induction posts as [|p posts IH]; intros acc Hs.
  - exists [], []. simpl. rewrite app_nil_r. split; [reflexivity | constructor].
  - destruct Hs as [Hp Hs]. cbn [collect]. unfold within. cbn [filter].
    destruct (Z.ltb_spec (created p) cutoff) as [Hold|Hnew].
    + exists [], posts. rewrite app_nil_r. split; [reflexivity|].
      destruct (Z.leb_spec cutoff (created p)); [lia|].
      replace (filter (fun q => (cutoff <=? created q)%Z) posts) with (@nil post);
        [constructor|].
      symmetry. clear IH Hs. induction Hp as [|q posts Hq _ IHp]; [reflexivity|].
      cbn [filter]. destruct (Z.leb_spec cutoff (created q)); [lia | exact IHp].
    + destruct (Z.leb_spec cutoff (created p)); [|lia].
      destruct (build_row_returns strftime_ymd p) as (price & _ & Hrow). rewrite Hrow.
      match goal with
      | |- context [collect _ _ _ (acc ++ [?r])] =>
          destruct (IH (acc ++ [r]) Hs) as (rows & unread & Hc & Hrows);
          exists (r :: rows), unread
      end.
      rewrite Hc, <- app_assoc. split; [reflexivity|]. constructor; assumption.
Qed.

(** On a listing in its promised order the loop loses nothing by stopping: its
    rows are those of all the posts at or after the cutoff. *)
Theorem collect_ordered_is_filter (cutoff : Z) (posts : list post) :
  newest_first posts ->
  exists rows unread,
    collect strftime_ymd cutoff posts [] = Returns (rows, unread) /\
    Forall2 (fun p r => build_row strftime_ymd p = Returns r) (within cutoff posts) rows.
Proof. intros Hs. exact (collect_ordered cutoff posts [] Hs). Qed.

(** A run ends with [KeyError], before any file is named, when the feed is
    empty or its first post is older than the cutoff; otherwise it completes,
    and the number of rows it reports is at least one, at most the limit of
    the listing and at most the length of the feed. *)
Theorem export_completes_iff_first_post_new (months now : Z) (feed : list post) :
  match feed with
  | [] => export strftime_ymd minus_months months now feed = Raises KeyError
  | p :: _ =>
      if (created p <? minus_months now months)%Z
      then export strftime_ymd minus_months months now feed = Raises KeyError
      else exists n,
             export strftime_ymd minus_months months now feed
               = Returns (out_name months, n) /\
             1 <= n <= LIMIT /\ n <= length feed
  end.
Proof.
  destruct feed as [|p feed]; [reflexivity|].
  unfold export.
  destruct (collect_from strftime_ymd (minus_months now months)
                         (firstn LIMIT (p :: feed)) [])
    as (rows & Hc & Hrows & _ & Hstop).
  rewrite Hc. cbn [app].
  pose proof (Forall2_length Hrows) as Hlen.
  rewrite length_firstn, length_firstn in Hlen.
  destruct (Z.ltb_spec (created p) (minus_months now months)) as [Hold|Hnew].
  - destruct rows as [|r rows]; [reflexivity|]. exfalso.
    change (firstn LIMIT (p :: feed)) with (p :: firstn (pred LIMIT) feed) in Hc.
    cbn [collect] in Hc. destruct (Z.ltb_spec (created p) (minus_months now months));
      [discriminate Hc | lia].
  - destruct rows as [|r rows].
    + exfalso. specialize (Hstop p eq_refl). lia.
    + eexists. split; [reflexivity|]. cbn [length] in *. unfold LIMIT in *. lia.
Qed.

(** The location of a row is the one found in the title when there is one;
    the body is looked at only when the title gives none. *)
Theorem location_title_before_body (p : post) :
  exists r,
    build_row strftime_ymd p = Returns r /\
    seller_location r =
      match extract_location_from_title (or_empty (title p)) with
      | Some loc => Some loc
      | None => extract_location_from_title (or_empty (selftext p))
      end.
Proof.
  destruct (build_row_returns strftime_ymd p) as (price & _ & Hrow).
  eexists. split; [exact Hrow|]. cbn [seller_location].
  destruct (extract_location_from_title (or_empty (title p))) as [loc|] eqn:E;
    [|reflexivity].
  unfold extract_location_from_title in E. apply first_location_nonempty in E.
  destruct loc; [congruence | reflexivity].
Qed.

End LoopFacts.

(** Three posts in order, the last one older than the cutoff: the rows are
    those of the two posts a filter keeps. *)
Lemma collect_ordered_on_three_posts :
  newest_first three_posts /\
  exists rows unread,
    collect (U := plain_db) day_number (-180 * DAY) three_posts [] = Returns (rows, unread) /\
    Forall2 (fun p r => build_row (U := plain_db) day_number p = Returns r)
            (within (-180 * DAY) three_posts) rows.
Proof.
  assert (H : newest_first three_posts).
  { repeat split; repeat constructor; vm_compute; discriminate. }
  split; [exact H|].
  exact (@collect_ordered_is_filter plain_db day_number (-180 * DAY) three_posts H).
Defined.

(** ** What the location can be *)

Section LocationFacts.
Context {U : UnicodeDB}.

(** [[A-Z]{2}] matches in full exactly the texts of two capital letters. *)
Lemma state_code_inv tt st :
  fullmatch STATE_CODE tt = Some st ->
  exists a b, tt = [a; b] /\ in_range 65 90 a = true /\ in_range 65 90 b = true.
Proof.
  unfold fullmatch. intros H. apply find_some in H. destruct H as [Hin Hend].
  change (matches (ignorecase STATE_CODE) (tree STATE_CODE) (MState None tt []))
    with (flat_map (upto (at_char (fun c => in_range 65 90 c || false)) 0)
                   (times (at_char (fun c => in_range 65 90 c || false)) 2
                          (MState None tt []))) in Hin.
  apply in_flat_map in Hin. destruct Hin as (mid & Hm & Hb).
  destruct Hb as [<-|[]].
  apply times_chars in Hm. destruct Hm as (w & Lw & Fw & Ew & _).
  destruct (rest mid); [|discriminate]. cbn [rest] in Ew. rewrite app_nil_r in Ew.
  subst tt. destruct w as [|a [|b [|x w]]]; try discriminate.
  inversion Fw as [|? ? Ha Fw']. inversion Fw' as [|? ? Hb _]. subst.
  rewrite orb_false_r in Ha, Hb. eauto.
Qed.

Lemma state_code_matches a b :
  in_range 65 90 a = true -> in_range 65 90 b = true ->
  fullmatch STATE_CODE [a; b] <> None.
Proof.
  intros Ha Hb. apply fullmatch_reach.
  destruct (@reach_times (fun c => in_range 65 90 c || false) [a; b]
                         (MState None [a; b] []) [])
    as (st & Hst & Est).
  { repeat constructor; rewrite orb_false_r; assumption. }
  { reflexivity. }
  exists st. split; [|exact Est].
  change (In st (flat_map (upto (at_char (fun c => in_range 65 90 c || false)) 0)
                          (times (at_char (fun c => in_range 65 90 c || false)) 2
                                 (MState None [a; b] [])))).
  apply in_flat_map. exists st. split; [exact Hst | left; reflexivity].
Qed.

Lemma first_location_inv tags tt :
  first_location tags = Some tt ->
  exists earlier t later,
    tags = earlier ++ t :: later /\ tt = strip t /\
    (passes_words tt = true \/
     exists a b, tt = [a; b] /\ in_range 65 90 a = true /\ in_range 65 90 b = true) /\
    Forall (fun e => passes_words (strip e) = false /\
                     forall a b, strip e = [a; b] ->
                                 in_range 65 90 a && in_range 65 90 b = false) earlier.
Proof.
  induction tags as [|t tags IH]; cbn [first_location]; [discriminate|].
  fold (passes_words (strip t)).
  destruct (passes_words (strip t)) eqn:Ew.
  - intros [= <-]. exists [], t, tags. repeat split; auto.
  - destruct (fullmatch STATE_CODE (strip t)) as [st|] eqn:Ef.
    + intros [= <-]. exists [], t, tags. repeat split; auto.
      right. eapply state_code_inv, Ef.
    + intros H. destruct (IH H) as (earlier & t' & later & -> & Htt & Hpass & Hfail).
      exists (t :: earlier), t', later. repeat split; auto.
      constructor; [|exact Hfail]. split; [exact Ew|].
      intros a b Eab.
      destruct (in_range 65 90 a) eqn:Ha; [|reflexivity].
      destruct (in_range 65 90 b) eqn:Hb; [|reflexivity].
      exfalso. rewrite Eab in Ef. now apply (state_code_matches a b).
Qed.

(** The location found in a text is one of its bracket tags, stripped: the
    first whose stripped body, in capitals, contains one of the seven words or
    is two capital letters A to Z.  It is never the empty string. *)
Theorem location_is_first_fitting_tag (text tt : str) :
  extract_location_from_title text = Some tt ->
  tt <> [] /\
  exists earlier t later,
    findall TITLE_TAG_RE "tag" text = earlier ++ t :: later /\ tt = strip t /\
    (passes_words tt = true \/
     exists a b, tt = [a; b] /\ in_range 65 90 a = true /\ in_range 65 90 b = true) /\
    Forall (fun e => passes_words (strip e) = false /\
                     forall a b, strip e = [a; b] ->
                                 in_range 65 90 a && in_range 65 90 b = false) earlier.
Proof.
  unfold extract_location_from_title. intros H. split.
  - eapply first_location_nonempty, H.
  - apply first_location_inv, H.
Qed.

(** A pattern that starts with an opening bracket matches nowhere but at an
    opening bracket. *)
Lemma match_here_needs_open p r before s :
  tree p = Cat (Lit 91) r -> ignorecase p = false ->
  match s with [] => True | c :: _ => c <> 91%N end ->
  match_here p before s = None.
Proof.
  intros Et Ei Hs. unfold match_here. rewrite Et, Ei.
  change (matches false (Cat (Lit 91) r) (MState before s []))
    with (flat_map (matches false r) (at_char (char_match false 91) (MState before s []))).
  rewrite at_char_stop; [reflexivity|].
  destruct s as [|c s]; [exact I|]. rewrite char_match_exact. now apply N.eqb_neq.
Qed.

Lemma findall_no_open p r g s : forall before,
  tree p = Cat (Lit 91) r -> ignorecase p = false -> ~ In 91%N s ->
  findall_from p g before s 0 = [].
Proof.
  induction s as [|c s IH]; intros before Et Ei Hs; cbn [findall_from].
  - now rewrite (match_here_needs_open p before [] Et Ei).
  - rewrite (match_here_needs_open p before (c :: s) Et Ei)
      by (intros ->; apply Hs; simpl; auto).
    apply IH; auto. intros H. apply Hs. simpl. auto.
Qed.

Lemma sub_no_open p r repl s : forall before,
  tree p = Cat (Lit 91) r -> ignorecase p = false -> ~ In 91%N s ->
  sub_from p repl before s 0 = s.
Proof.
  induction s as [|c s IH]; intros before Et Ei Hs; cbn [sub_from].
  - now rewrite (match_here_needs_open p before [] Et Ei).
  - rewrite (match_here_needs_open p before (c :: s) Et Ei)
      by (intros ->; apply Hs; simpl; auto).
    f_equal. apply IH; auto. intros H. apply Hs. simpl. auto.
Qed.

End LocationFacts.

(** The title "[WTS] [CA] Rolex Submariner": the tag WTS fits neither test,
    the tag CA is two capital letters and is the location. *)
Lemma location_of_state_tag_title :
  extract_location_from_title (U := plain_db) (py "[WTS] [CA] Rolex Submariner")
    = Some (py "CA") /\
  py "CA" <> [] /\
  exists earlier t later,
    findall (U := plain_db) TITLE_TAG_RE "tag" (py "[WTS] [CA] Rolex Submariner")
      = earlier ++ t :: later /\
    py "CA" = strip (U := plain_db) t /\
    (passes_words (U := plain_db) (py "CA") = true \/
     exists a b, py "CA" = [a; b] /\ in_range 65 90 a = true /\ in_range 65 90 b = true) /\
    Forall (fun e => passes_words (U := plain_db) (strip (U := plain_db) e) = false /\
                     forall a b, strip (U := plain_db) e = [a; b] ->
                                 in_range 65 90 a && in_range 65 90 b = false) earlier.
Proof.
  assert (H : extract_location_from_title (U := plain_db)
                (py "[WTS] [CA] Rolex Submariner") = Some (py "CA"))
    by (vm_compute; reflexivity).
  split; [exact H|].
  exact (@location_is_first_fitting_tag plain_db
           (py "[WTS] [CA] Rolex Submariner") (py "CA") H).
Defined.

(** ** Tags that begin with a token of the location recognizer *)

Section PrefixedTags.
Context {U : UnicodeDB}.

Lemma starts_with_app x : forall s r,
  starts_with x s = true -> starts_with x (s ++ r) = true.
Proof.
  induction x as [|p x IH]; intros s r H; [reflexivity|].
  destruct s as [|c s]; [discriminate|]. cbn [app starts_with] in *.
  apply andb_true_iff in H. destruct H as [E H]. rewrite E. now apply IH.
Qed.

Lemma contains_app x r : forall s,
  contains s x = true -> contains (s ++ r) x = true.
Proof.
  induction s as [|c s IH]; intros H.
  - cbn [contains] in H. rewrite orb_false_r in H.
    apply (starts_with_app x [] r) in H. cbn [app] in *.
    destruct r; cbn [contains]; rewrite H; reflexivity.
  - cbn [app contains] in *. apply orb_true_iff in H. destruct H as [H|H].
    + change (c :: s ++ r) with ((c :: s) ++ r). now rewrite (starts_with_app x _ r H).
    + rewrite (IH H). apply orb_true_r.
Qed.

(** A text that begins with a text passing the test on the words passes it. *)
Lemma passes_words_prefix token behind :
  passes_words token = true -> passes_words (token ++ behind) = true.
Proof.
  unfold passes_words. rewrite !existsb_exists. intros (x & Hx & H).
  exists x. split; [exact Hx|]. unfold upper. rewrite flat_map_app.
  now apply contains_app.
Qed.

Lemma tokens_pass token :
  In token LOCATION_TOKENS ->
  passes_words token = true /\ Forall (fun c => isspace c = false) token /\
  ~ In 93%N token /\ exists c t, token = c :: t.
Proof.
  intros H. cbn in H.
  destruct H as [<-|[<-|[<-|[<-|[<-|[<-|[<-|[<-|[]]]]]]]]];
    (split; [reflexivity|]); (split; [repeat constructor|]);
    (split; [cbn; intuition discriminate | eexists; eexists; reflexivity]).
Qed.

(** Stripping a text that begins with a token keeps the token and takes
    blanks off the end of what follows it. *)
Lemma strip_keeps_token token region :
  Forall (fun c => isspace c = false) token -> token <> [] ->
  exists kept ws,
    strip (token ++ region) = token ++ kept /\ region = kept ++ ws /\
    Forall (fun c => isspace c = true) ws.
Proof.
  intros F Hne. unfold strip.
  assert (El : lstrip (token ++ region) = token ++ region).
  { destruct token as [|c t]; [congruence|]. cbn [app lstrip].
    now rewrite (Forall_inv F). }
  rewrite El.
  destruct (rstrip_blanks (token ++ region)) as (ws & E & Fws).
  destruct (app_eq_app _ _ _ _ E) as (l & [[Et Ew]|[Er Eg]]).
  - assert (l = []).
    { destruct l as [|c l]; [reflexivity|]. exfalso.
      assert (H1 : isspace c = false).
      { rewrite Forall_forall in F. apply F. rewrite Et. apply in_or_app. right. now left. }
      assert (H2 : isspace c = true).
      { rewrite Forall_forall in Fws. apply Fws. rewrite Ew. now left. }
      congruence. }
    subst l. rewrite app_nil_r in Et. cbn [app] in Ew.
    exists [], region. rewrite app_nil_r. split; [congruence|].
    split; [reflexivity | congruence].
  - exists l, ws. auto.
Qed.

Lemma first_location_passing tags : forall t,
  In t tags -> passes_words (strip t) = true -> first_location tags <> None.
Proof.
  induction tags as [|e tags IH]; intros t Hin Hp; [destruct Hin|].
  destruct Hin as [<-|Hin]; cbn [first_location]; fold (passes_words (strip e)).
  - rewrite Hp. discriminate.
  - destruct (passes_words (strip e)); [discriminate|].
    destruct (fullmatch STATE_CODE (strip e)); [discriminate|].
    now apply (IH t).
Qed.

Lemma first_location_behind earlier t later :
  Forall (fun e => passes_words (strip e) = false /\
                   forall a b, strip e = [a; b] ->
                               in_range 65 90 a && in_range 65 90 b = false) earlier ->
  passes_words (strip t) = true ->
  first_location (earlier ++ t :: later) = Some (strip t).
Proof.
  intros F Hp. induction F as [|e earlier [Hw Hs] _ IH]; cbn [app first_location].
  - fold (passes_words (strip t)). now rewrite Hp.
  - fold (passes_words (strip e)). rewrite Hw.
    destruct (fullmatch STATE_CODE (strip e)) as [st|] eqn:Ef; [|exact IH].
    exfalso. apply state_code_inv in Ef. destruct Ef as (a & b & E & Ha & Hb).
    specialize (Hs a b E). rewrite Ha, Hb in Hs. discriminate.
Qed.

(** C7. A bracket tag that begins with one of the tokens USA, US, CONUS, CAN,
    EU, UK, AUS and NZ, whatever follows the token, a separator and a region
    code for one, is a location: stripped, it keeps the token and loses
    nothing but blanks at its end; a title that has such a tag has a location;
    the tag, stripped, is the location when no tag before it passes either
    test of the loop, and when no opening bracket stands before it in the
    title.  INTL is none of the tokens. *)
Theorem prefixed_tag_is_located (token region : str) :
  In token LOCATION_TOKENS ->
  (exists kept ws,
     strip (token ++ region) = token ++ kept /\ region = kept ++ ws /\
     Forall (fun c => isspace c = true) ws) /\
  (forall title,
     In (token ++ region) (findall TITLE_TAG_RE "tag" title) ->
     exists loc, extract_location_from_title title = Some loc) /\
  (forall title earlier later,
     findall TITLE_TAG_RE "tag" title = earlier ++ (token ++ region) :: later ->
     Forall (fun e => passes_words (strip e) = false /\
                      forall a b, strip e = [a; b] ->
                                  in_range 65 90 a && in_range 65 90 b = false) earlier ->
     extract_location_from_title title = Some (strip (token ++ region))) /\
  (forall ahead_of behind,
     ~ In 91%N ahead_of -> ~ In 93%N region ->
     extract_location_from_title
       (ahead_of ++ [91%N] ++ (token ++ region) ++ [93%N] ++ behind)
     = Some (strip (token ++ region))).
Proof.
  intros Ht. destruct (@tokens_pass token Ht) as (Hp & Fs & Hno & c & t & Et).
  assert (Hne : token <> []) by (rewrite Et; discriminate).
  destruct (@strip_keeps_token token region Fs Hne) as (kept & ws & Es & Er & Fws).
  assert (Hpass : passes_words (strip (token ++ region)) = true)
    by (rewrite Es; now apply passes_words_prefix).
  split; [exists kept, ws; auto|]. split; [|split].
  - intros title Hin. unfold extract_location_from_title.
    destruct (first_location (findall TITLE_TAG_RE "tag" title)) as [loc|] eqn:E;
      [now exists loc|].
    exfalso. exact (@first_location_passing _ _ Hin Hpass E).
  - intros title earlier later Etags F. unfold extract_location_from_title.
    rewrite Etags. now apply first_location_behind.
  - intros ahead_of behind Hpre Hreg.
    assert (Hbody : token ++ region <> []) by (rewrite Et; discriminate).
    assert (Hclose : ~ In 93%N (token ++ region)).
    { intros H. apply in_app_or in H. tauto. }
    destruct (@findall_first_tag U ahead_of (token ++ region) behind Hpre Hbody Hclose)
      as (tags & Etags).
    unfold extract_location_from_title. rewrite Etags.
    exact (@first_location_behind [] (token ++ region) tags (Forall_nil _) Hpass).
Qed.

End PrefixedTags.

(** The tag "[INTL-NY]", which [LOCATION_RE] accepts, is no location for the
    extraction, alone or behind "[WTS]". *)
Lemma intl_tag_not_located :
  found (U := plain_db) LOCATION_RE (py "[INTL-NY]") = true /\
  extract_location_from_title (U := plain_db) (py "[INTL-NY]") = None /\
  extract_location_from_title (U := plain_db) (py "[WTS] [INTL-NY] Omega Seamaster")
  = None.
Proof. repeat split; vm_compute; reflexivity. Qed.

(** The token USA followed by "-NY". *)
Lemma usa_ny_tag_is_located :
  In (py "USA") LOCATION_TOKENS /\
  (exists kept ws,
     strip (U := plain_db) (py "USA" ++ py "-NY") = py "USA" ++ kept /\
     py "-NY" = kept ++ ws /\
     Forall (fun c => isspace (U := plain_db) c = true) ws) /\
  (forall title,
     In (py "USA" ++ py "-NY") (findall (U := plain_db) TITLE_TAG_RE "tag" title) ->
     exists loc, extract_location_from_title (U := plain_db) title = Some loc) /\
  (forall title earlier later,
     findall (U := plain_db) TITLE_TAG_RE "tag" title
       = earlier ++ (py "USA" ++ py "-NY") :: later ->
     Forall (fun e => passes_words (U := plain_db) (strip (U := plain_db) e) = false /\
                      forall a b, strip (U := plain_db) e = [a; b] ->
                                  in_range 65 90 a && in_range 65 90 b = false) earlier ->
     extract_location_from_title (U := plain_db) title
     = Some (strip (U := plain_db) (py "USA" ++ py "-NY"))) /\
  (forall ahead_of behind,
     ~ In 91%N ahead_of -> ~ In 93%N (py "-NY") ->
     extract_location_from_title (U := plain_db)
       (ahead_of ++ [91%N] ++ (py "USA" ++ py "-NY") ++ [93%N] ++ behind)
     = Some (strip (U := plain_db) (py "USA" ++ py "-NY"))).
Proof.
  assert (H : In (py "USA") LOCATION_TOKENS) by (left; reflexivity).
  split; [exact H|].
  exact (@prefixed_tag_is_located plain_db (py "USA") (py "-NY") H).
Defined.

(** ** Patterns without a word boundary *)

Section PrevFree.
Context {U : UnicodeDB}.

Lemma Forall2_flat_map {A B} (R : A -> A -> Prop) (S : B -> B -> Prop) f g l l' :
  Forall2 R l l' ->
  (forall a b, R a b -> Forall2 S (f a) (g b)) ->
  Forall2 S (flat_map f l) (flat_map g l').
Proof.
  intros H Hfg. induction H as [|a b l l' Hab _ IH]; [constructor|].
  simpl. apply Forall2_app; auto.
Qed.

Lemma same_ahead_refl a : same_ahead a a.
Proof. split; reflexivity. Qed.

Lemma at_char_same ok a b :
  same_ahead a b -> Forall2 same_ahead (at_char ok a) (at_char ok b).
Proof.
  intros [Hr Hc]. unfold at_char, step. rewrite <- Hr, <- Hc.
  destruct (rest a) as [|c s]; [constructor|].
  destruct (ok c); [constructor; [split; reflexivity | constructor] | constructor].
Qed.

Lemma times_same f g n :
  (forall a b, same_ahead a b -> Forall2 same_ahead (f a) (g b)) ->
  forall a b, same_ahead a b -> Forall2 same_ahead (times f n a) (times g n b).
Proof.
  intros Hfg. induction n as [|n IH]; intros a b Hab; simpl.
  - constructor; [assumption | constructor].
  - eapply Forall2_flat_map; [apply Hfg, Hab | exact IH].
Qed.

Lemma upto_same f g n :
  (forall a b, same_ahead a b -> Forall2 same_ahead (f a) (g b)) ->
  forall a b, same_ahead a b -> Forall2 same_ahead (upto f n a) (upto g n b).
Proof.
  intros Hfg. induction n as [|n IH]; intros a b Hab; simpl.
  - constructor; [assumption | constructor].
  - apply Forall2_app; [|constructor; [assumption | constructor]].
    eapply Forall2_flat_map; [apply Hfg, Hab | exact IH].
Qed.

(** Without [\b] a pattern matches the same texts, with the same captures,
    whatever character stands before the point. *)
Lemma matches_same ic r :
  wordb_free r = true ->
  forall a b, same_ahead a b -> Forall2 same_ahead (matches ic r a) (matches ic r b).
Proof.
  induction r as [p|k|items|items| | |x IHx y IHy|x IHx y IHy|lo hi x IHx|name x IHx];
    cbn [wordb_free matches]; intros W a b Hab;
    try (apply at_char_same; assumption).
  - discriminate.
  - constructor; [assumption | constructor].
  - apply andb_true_iff in W. destruct W as [Wx Wy].
    eapply Forall2_flat_map; [apply IHx; eassumption | intros; apply IHy; assumption].
  - apply andb_true_iff in W. destruct W as [Wx Wy].
    apply Forall2_app; auto.
  - destruct Hab as [Hr Hc]. rewrite <- Hr.
    eapply Forall2_flat_map.
    + apply times_same; [intros; apply IHx; assumption | split; assumption].
    + intros. apply upto_same; [intros; apply IHx; assumption | assumption].
  - pose proof (IHx W a b Hab) as H. destruct Hab as [Hr Hc].
    induction H as [|u v l l' [Hur Huc] _ IH]; simpl; constructor; auto.
    split; simpl; [assumption|]. unfold consumed. now rewrite Hr, Hur, Huc.
Qed.

Lemma match_here_same p before before' s :
  wordb_free (tree p) = true ->
  match match_here p before s, match_here p before' s with
  | Some a, Some b => same_ahead a b
  | None, None => True
  | _, _ => False
  end.
Proof.
  intros W. unfold match_here.
  assert (H : Forall2 same_ahead
                (matches (ignorecase p) (tree p) (MState before s []))
                (matches (ignorecase p) (tree p) (MState before' s [])))
    by (apply matches_same; [exact W | split; reflexivity]).
  destruct H; simpl; auto.
Qed.

(** [sub] and [findall] with such a pattern do not depend on the character
    before the text either. *)
Lemma sub_from_same p repl s : wordb_free (tree p) = true ->
  forall before before' skip, sub_from p repl before s skip = sub_from p repl before' s skip.
Proof.
  intros W. induction s as [|c s IH]; intros before before' skip.
  - destruct skip; cbn [sub_from]; [|reflexivity].
    pose proof (match_here_same p before before' [] W) as H.
    destruct (match_here p before []), (match_here p before' []); tauto.
  - destruct skip; cbn [sub_from]; [|apply IH].
    pose proof (match_here_same p before before' (c :: s) W) as H.
    destruct (match_here p before (c :: s)) as [a|], (match_here p before' (c :: s)) as [b|];
      try tauto.
    destruct H as [Hr _]. now rewrite Hr.
Qed.

Lemma sub_from_skip p repl w : forall before r,
  sub_from p repl before (w ++ r) (length w)
  = sub_from p repl (last (map Some w) before) r 0.
Proof.
  induction w as [|c w IH]; intros before r; [reflexivity|].
  cbn [length app sub_from map]. rewrite IH. now rewrite last_cons.
Qed.

End PrevFree.

(** ** First matches *)

Section FirstMatch.
Context {U : UnicodeDB}.

Lemma first_cat ic a b st s1 s2 :
  hd_error (matches ic a st) = Some s1 ->
  hd_error (matches ic b s1) = Some s2 ->
  hd_error (matches ic (Cat a b) st) = Some s2.
Proof.
  cbn [matches]. destruct (matches ic a st) as [|x l]; [discriminate|].
  intros [= ->]. cbn [flat_map].
  destruct (matches ic b s1) as [|y l']; [discriminate|]. intros [= ->]. reflexivity.
Qed.

Lemma first_lit p before s cp :
  hd_error (matches false (Lit p) (MState before (p :: s) cp))
  = Some (MState (Some p) s cp).
Proof.
  cbn [matches]. rewrite (@at_char_take (char_match false p) before p s cp); [reflexivity|].
  rewrite char_match_exact. apply N.eqb_refl.
Qed.

Lemma times_chars_all ok w : forall before r cp,
  Forall (fun c => ok c = true) w ->
  times (at_char ok) (length w) (MState before (w ++ r) cp)
  = [MState (last (map Some w) before) r cp].
Proof.
  induction w as [|c w IH]; intros before r cp F; [reflexivity|].
  inversion F as [|? ? Hc F']; subst.
  cbn [length times app]. rewrite (@at_char_take ok before c (w ++ r) cp Hc).
  cbn [flat_map]. rewrite IH by assumption. cbn [map]. now rewrite last_cons, app_nil_r.
Qed.

Lemma last_map_app (w1 : str) : forall w2 before,
  last (map Some (w1 ++ w2)) before = last (map Some w2) (last (map Some w1) before).
Proof.
  induction w1 as [|c w1 IH]; intros w2 before; [reflexivity|].
  cbn [app map]. now rewrite !last_cons, IH.
Qed.

(** A greedy repetition of a class, with no upper bound, first takes the whole
    run of the class that stands ahead. *)
Lemma first_run ic a ok w1 w2 before r cp :
  (forall st, matches ic a st = at_char ok st) ->
  Forall (fun c => ok c = true) w1 ->
  Forall (fun c => ok c = true) w2 ->
  match r with [] => True | c :: _ => ok c = false end ->
  hd_error (matches ic (Rep (length w1) None a) (MState before (w1 ++ w2 ++ r) cp))
  = Some (MState (last (map Some (w1 ++ w2)) before) r cp).
Proof.
  intros Ha F1 F2 Hstop.
  assert (Ef : forall n st, times (matches ic a) n st = times (at_char ok) n st).
  { induction n as [|n IH]; intros st; simpl; [reflexivity|].
    rewrite Ha. apply flat_map_ext. intros x. apply IH. }
  assert (Eu : forall n st, upto (matches ic a) n st = upto (at_char ok) n st).
  { induction n as [|n IH]; intros st; simpl; [reflexivity|].
    rewrite Ha. f_equal. apply flat_map_ext. intros x. apply IH. }
  cbn [matches rest]. rewrite Ef, (@times_chars_all ok w1 before (w2 ++ r) cp F1).
  cbn [flat_map]. rewrite app_nil_r, Eu.
  destruct (@upto_greedy_first ok w2 (length (w1 ++ w2 ++ r))
              (last (map Some w1) before) r cp F2 Hstop) as (others & E).
  - rewrite !length_app. lia.
  - rewrite E. cbn [hd_error]. now rewrite last_map_app.
Qed.

End FirstMatch.

(** ** Brand and model *)

Section BrandFacts.
Context {U : UnicodeDB}.

(** Brand and model are read off the tokens of the title without its tags. *)
Lemma brand_model_of_tokens title :
  extract_brand_model title =
    match split (sub TAG_AND_BLANKS [] title) with
    | [] => (None, None)
    | [t] => (Some t, None)
    | brand :: others => (Some brand, Some (firstn 200 (join (py " ") others)))
    end.
Proof.
  destruct title as [|c title]; [reflexivity|].
  unfold extract_brand_model.
  rewrite <- (split_strip (sub TAG_AND_BLANKS [] (c :: title))).
  remember (strip (sub TAG_AND_BLANKS [] (c :: title))) as cleaned eqn:Hc.
  destruct (split cleaned) as [|t [|t' others]] eqn:E.
  - rewrite Hc in E. apply split_strip_nil in E. rewrite <- Hc in E.
    now rewrite E.
  - pose proof E as E'. rewrite Hc in E'. apply split_strip_single in E'.
    rewrite <- Hc in E'. subst t. simpl.
    destruct cleaned; [discriminate E | reflexivity].
  - reflexivity.
Qed.

Lemma rev_cons_nonempty {A} (x : A) l : rev (x :: l) <> [].
Proof.
  simpl. intros E. apply app_eq_nil in E. destruct E as [_ E]. discriminate E.
Qed.

(** A token is not empty and holds no blank. *)
Lemma split_from_tokens s : forall cur,
  Forall (fun c => isspace c = false) cur ->
  Forall (fun t => t <> [] /\ Forall (fun c => isspace c = false) t) (split_from cur s).
Proof.
  induction s as [|c s IH]; intros cur F; cbn [split_from].
  - destruct cur as [|x cur]; [constructor|].
    constructor; [|constructor].
    split; [apply rev_cons_nonempty | apply Forall_rev, F].
  - destruct (isspace c) eqn:Hc.
    + destruct cur as [|x cur]; [apply IH; constructor|].
      constructor; [|apply IH; constructor].
      split; [apply rev_cons_nonempty | apply Forall_rev, F].
    + apply IH. constructor; assumption.
Qed.

Lemma join_head sep (ts : list str) c t' :
  exists more, join sep ((c :: t') :: ts) = c :: more.
Proof. destruct ts; simpl; eexists; reflexivity. Qed.

(** The brand is a token: not empty, without a blank.  A model comes with a
    brand, has between 1 and 200 characters and starts with a character that
    is no blank. *)
Theorem brand_model_shape (title : str) (brand model : option str) :
  extract_brand_model title = (brand, model) ->
  (forall b, brand = Some b -> b <> [] /\ Forall (fun c => isspace c = false) b) /\
  (forall m, model = Some m ->
     brand <> None /\ length m <= 200 /\
     exists c more, m = c :: more /\ isspace c = false).
Proof.
  rewrite brand_model_of_tokens.
  pose proof (@split_from_tokens (sub TAG_AND_BLANKS [] title) [] (Forall_nil _)) as F.
  fold (split (sub TAG_AND_BLANKS [] title)) in F.
  destruct (split (sub TAG_AND_BLANKS [] title)) as [|t [|t2 others]].
  - intros [= <- <-]. split; intros ? [=].
  - intros [= <- <-]. pose proof (Forall_inv F) as Ht. cbv beta in Ht.
    split; [intros b [= <-]; exact Ht | intros ? [=]].
  - remember (firstn 200 (join (py " ") (t2 :: others))) as m0 eqn:Em.
    intros H.
    assert (Hb : brand = Some t) by congruence.
    assert (Hm : model = Some m0) by congruence.
    clear H. pose proof (Forall_inv F) as Ht.
    pose proof (Forall_inv (Forall_inv_tail F)) as Ht2. cbv beta in Ht, Ht2.
    split.
    + intros b Eb. assert (b = t) by congruence. subst b. exact Ht.
    + intros m Emm. assert (m = m0) by congruence. subst m. clear Emm.
      split; [rewrite Hb; discriminate|]. split.
      * rewrite Em, length_firstn. lia.
      * destruct Ht2 as [Hne Hns]. destruct t2 as [|c t2']; [congruence|].
        destruct (join_head (py " ") others c t2') as (more & E).
        exists c, (firstn 199 more). split; [|inversion Hns; assumption].
        rewrite Em. transitivity (firstn 200 (c :: more)); [f_equal; exact E | reflexivity].
Qed.

(** A blank is no opening bracket. *)
Lemma blank_not_open c : isspace c = true -> c <> 91%N.
Proof. intros H ->. discriminate H. Qed.

Lemma sub_blanks_before repl ws : Forall (fun c => isspace c = true) ws ->
  forall before x,
    sub_from TAG_AND_BLANKS repl before (ws ++ x) 0
    = ws ++ sub TAG_AND_BLANKS repl x.
Proof.
  induction 1 as [|c ws Hc _ IH]; intros before x.
  - cbn [app]. unfold sub. now apply sub_from_same.
  - cbn [app sub_from].
    rewrite (@match_here_needs_open U TAG_AND_BLANKS
               (Cat TAG_BODY (Cat (Lit 93) (Star (Cls Space)))) before
               (c :: ws ++ x) eq_refl eq_refl (blank_not_open Hc)).
    f_equal. apply IH.
Qed.

(** At a tag, the pattern that is removed first takes the tag and all the
    blanks behind it. *)
Lemma match_here_tag_blanks before body ws behind :
  body <> [] -> ~ In 93%N body ->
  Forall (fun c => isspace c = true) ws ->
  match behind with [] => True | c :: _ => isspace c = false end ->
  exists st,
    match_here TAG_AND_BLANKS before (91%N :: body ++ 93%N :: ws ++ behind) = Some st /\
    rest st = behind.
Proof.
  intros Hne Hno Hws Hstop. unfold match_here.
  change (tree TAG_AND_BLANKS)
    with (Cat (Lit 91) (Cat TAG_BODY (Cat (Lit 93) (Star (Cls Space))))).
  cbn [ignorecase TAG_AND_BLANKS].
  destruct body as [|c body]; [congruence|].
  assert (Fb : Forall (fun x => not_close x = true) (c :: body)).
  { apply Forall_forall. intros x Hx. apply not_close_spec. intros ->. contradiction. }
  inversion Fb as [|? ? Hc Fb']; subst.
  eexists. split.
  - eapply first_cat; [apply first_lit|].
    eapply first_cat.
    { unfold TAG_BODY, Plus.
      apply (@first_run U false (NoneOf [SChr 93]) not_close [c] body (Some 91%N)
               (93%N :: ws ++ behind) []).
      - intros st. reflexivity.
      - constructor; [exact Hc | constructor].
      - exact Fb'.
      - reflexivity. }
    eapply first_cat; [apply first_lit|].
    unfold Star.
    apply (@first_run U false (Cls Space) isspace [] ws (Some 93%N) behind []).
    + intros st. reflexivity.
    + constructor.
    + exact Hws.
    + exact Hstop.
  - reflexivity.
Qed.

Lemma lstrip_stop s : match lstrip s with [] => True | c :: _ => isspace c = false end.
Proof.
  destruct (lstrip s) as [|c t] eqn:E; [exact I|]. eapply lstrip_head, E.
Qed.

Lemma sub_leading_tag body behind :
  body <> [] -> ~ In 93%N body ->
  sub TAG_AND_BLANKS [] ([91%N] ++ body ++ [93%N] ++ behind)
  = sub TAG_AND_BLANKS [] (lstrip behind).
Proof.
  intros Hne Hno.
  destruct (lstrip_blanks behind) as (ws & E & Hws).
  pose proof (lstrip_stop behind) as Hstop.
  set (tail := lstrip behind) in *.
  change ([91%N] ++ body ++ [93%N] ++ behind) with (91%N :: body ++ 93%N :: behind).
  rewrite E. unfold sub. cbn [sub_from].
  destruct (@match_here_tag_blanks None body ws tail Hne Hno Hws Hstop) as (st & Hm & Hr).
  rewrite Hm, Hr. cbn [app].
  replace (length (91%N :: body ++ 93%N :: ws ++ tail) - length tail - 1)
    with (length (body ++ 93%N :: ws))
    by (cbn [length]; rewrite !length_app; cbn [length]; rewrite length_app; lia).
  replace (body ++ 93%N :: ws ++ tail) with ((body ++ 93%N :: ws) ++ tail)
    by (now rewrite <- app_assoc).
  rewrite sub_from_skip. now apply sub_from_same.
Qed.

(** A bracket tag at the start of the title, with the blanks behind it,
    changes neither brand nor model. *)
Theorem leading_tag_is_ignored (body behind : str) :
  body <> [] -> ~ In 93%N body ->
  extract_brand_model ([91%N] ++ body ++ [93%N] ++ behind)
  = extract_brand_model behind.
Proof.
  intros Hne Hno. rewrite !brand_model_of_tokens.
  rewrite (@sub_leading_tag body behind Hne Hno).
  destruct (lstrip_blanks behind) as (ws & E & Hws).
  rewrite E at 2. unfold sub at 2. rewrite (@sub_blanks_before [] ws Hws).
  now rewrite (split_blanks_before Hws).
Qed.

(** A text without an opening bracket has no tag: no location is found in it,
    and brand and model are read off its own tokens. *)
Theorem text_without_bracket (text : str) :
  ~ In 91%N text ->
  extract_location_from_title text = None /\
  extract_brand_model text =
    match split text with
    | [] => (None, None)
    | [t] => (Some t, None)
    | brand :: others => (Some brand, Some (firstn 200 (join (py " ") others)))
    end.
Proof.
  intros H. split.
  - unfold extract_location_from_title, findall.
    now rewrite (@findall_no_open U TITLE_TAG_RE (Cat (Grp "tag" TAG_BODY) (Lit 93))
                   "tag" text None eq_refl eq_refl H).
  - rewrite brand_model_of_tokens. unfold sub.
    now rewrite (@sub_no_open U TAG_AND_BLANKS
                   (Cat TAG_BODY (Cat (Lit 93) (Star (Cls Space)))) [] text None
                   eq_refl eq_refl H).
Qed.

End BrandFacts.

(** The title "[WTS] [USA-CA] Omega Seamaster 300": the brand Omega is a
    token, the model Seamaster 300 starts with a character that is no blank. *)
Lemma brand_model_shape_on_omega :
  extract_brand_model (U := plain_db) (py "[WTS] [USA-CA] Omega Seamaster 300")
    = (Some (py "Omega"), Some (py "Seamaster 300")) /\
  (forall b, Some (py "Omega") = Some b ->
     b <> [] /\ Forall (fun c => isspace (U := plain_db) c = false) b) /\
  (forall m, Some (py "Seamaster 300") = Some m ->
     Some (py "Omega") <> None /\ length m <= 200 /\
     exists c more, m = c :: more /\ isspace (U := plain_db) c = false).
Proof.
  assert (H : extract_brand_model (U := plain_db)
                (py "[WTS] [USA-CA] Omega Seamaster 300")
              = (Some (py "Omega"), Some (py "Seamaster 300")))
    by (vm_compute; reflexivity).
  split; [exact H|].
  exact (@brand_model_shape plain_db (py "[WTS] [USA-CA] Omega Seamaster 300")
           (Some (py "Omega")) (Some (py "Seamaster 300")) H).
Defined.

(** The tag [WTS] and the blank behind it, in front of "Omega Seamaster 300". *)
Lemma leading_wts_is_ignored :
  py "WTS" <> [] /\ (~ In 93%N (py "WTS")) /\
  extract_brand_model (U := plain_db)
    ([91%N] ++ py "WTS" ++ [93%N] ++ py " Omega Seamaster 300")
  = extract_brand_model (U := plain_db) (py " Omega Seamaster 300").
Proof.
  assert (H1 : py "WTS" <> []) by discriminate.
  assert (H2 : ~ In 93%N (py "WTS")) by (vm_compute; intuition discriminate).
  split; [exact H1|]. split; [exact H2|].
  exact (@leading_tag_is_ignored plain_db (py "WTS") (py " Omega Seamaster 300") H1 H2).
Defined.

(** The text "Omega Seamaster 300" has no bracket: no location, and brand
    and model from its three tokens. *)
Lemma omega_without_bracket :
  (~ In 91%N (py "Omega Seamaster 300")) /\
  extract_location_from_title (U := plain_db) (py "Omega Seamaster 300") = None /\
  extract_brand_model (U := plain_db) (py "Omega Seamaster 300") =
    match split (U := plain_db) (py "Omega Seamaster 300") with
    | [] => (None, None)
    | [t] => (Some t, None)
    | brand :: others => (Some brand, Some (firstn 200 (join (py " ") others)))
    end.
Proof.
  assert (H : ~ In 91%N (py "Omega Seamaster 300"))
    by (vm_compute; intuition discriminate).
  split; [exact H|].
  exact (@text_without_bracket plain_db (py "Omega Seamaster 300") H).
Defined.

(** ** Where a price comes from *)

Section PriceSource.
Context {U : UnicodeDB}.

Lemma search_from_suffix p s : forall before pos mo,
  search_from p before s pos = Some mo ->
  exists skipped before' s' st,
    s = skipped ++ s' /\
    In st (matches (ignorecase p) (tree p) (MState before' s' [])) /\
    m_caps mo = caps st.
Proof.
  induction s as [|c s IH]; intros before pos mo; cbn [search_from]; unfold match_here;
    destruct (matches (ignorecase p) (tree p) (MState before _ [])) as [|st l] eqn:E;
    cbn [hd_error]; intros H.
  - discriminate.
  - inversion H; subst mo. exists [], before, [], st. rewrite E.
    split; [reflexivity|]. split; [left; reflexivity | reflexivity].
  - destruct (IH _ _ _ H) as (skipped & b' & s' & st & Es & Hin & Hc).
    exists (c :: skipped), b', s', st. rewrite Es. auto.
  - inversion H; subst mo. exists [], before, (c :: s), st. rewrite E.
    split; [reflexivity|]. split; [left; reflexivity | reflexivity].
Qed.

(** A match of [PRICE_RE] captures, in its one group, an amount that stands
    in the text ahead. *)
Lemma price_amount_ahead before s st :
  In st (matches false (tree PRICE_RE) (MState before s [])) ->
  exists x w y name,
    s = x ++ w ++ y /\ amount w /\ caps st = [(name, w)] /\ In name PRICE_GROUPS.
Proof.
  set (st0 := MState before s []).
  change (tree PRICE_RE) with
    (Alt (Cat (Lit 36) (Cat (Opt (Cls Space)) (Grp "usd1" AMOUNT)))
    (Alt (Cat (Grp "usd2" AMOUNT) (Cat (Opt (Cls Space)) (alts [word "usd"; word "USD"])))
    (Alt (Cat (Grp "eur" AMOUNT)
              (Cat (Opt (Cls Space)) (alts [word "eur"; word "EUR"; Lit euro_sign])))
         (Cat (Lit euro_sign) (Cat (Opt (Cls Space)) (Grp "eur2" AMOUNT)))))).
  assert (Hpre : forall c name st',
             In st' (matches false (Cat (Lit c) (Cat (Opt (Cls Space)) (Grp name AMOUNT))) st0) ->
             exists x w y, s = x ++ w ++ y /\ amount w /\ caps st' = [(name, w)]).
  { intros c name st' H.
    apply in_cat in H. destruct H as (m1 & H1 & H).
    apply in_cat in H. destruct H as (m2 & H2 & H).
    destruct (matches_ahead _ _ _ _ H1) as (x1 & E1).
    destruct (matches_ahead _ _ _ _ H2) as (x2 & E2).
    apply (group_free_caps false (Lit c) eq_refl) in H1.
    apply (group_free_caps false (Opt (Cls Space)) eq_refl) in H2.
    apply in_grp in H. destruct H as (m3 & H3 & ->).
    apply amount_inv in H3. destruct H3 as (w & Hw & E & C3).
    exists (x1 ++ x2), w, (rest m3). split; [|split; [exact Hw|]].
    - change s with (rest st0). rewrite E1, E2, E, <- app_assoc. reflexivity.
    - cbn [caps]. rewrite (consumed_ahead _ _ _ E), C3, H2, H1. reflexivity. }
  assert (Hpost : forall name tail st',
             group_free tail = true ->
             In st' (matches false (Cat (Grp name AMOUNT) (Cat (Opt (Cls Space)) tail)) st0) ->
             exists x w y, s = x ++ w ++ y /\ amount w /\ caps st' = [(name, w)]).
  { intros name tail st' G H.
    apply in_cat in H. destruct H as (m1 & H1 & H).
    apply (group_free_caps false (Cat (Opt (Cls Space)) tail)) in H; [|simpl; exact G].
    apply in_grp in H1. destruct H1 as (m0 & H0 & ->).
    apply amount_inv in H0. destruct H0 as (w & Hw & E & C1).
    exists [], w, (rest m0). split; [exact E|]. split; [exact Hw|].
    rewrite H. cbn [caps]. rewrite (consumed_ahead _ _ _ E), C1. reflexivity. }
  intros H.
  apply in_alt in H. destruct H as [H|H]; [|apply in_alt in H; destruct H as [H|H];
    [|apply in_alt in H; destruct H as [H|H]]].
  - destruct (Hpre 36%N "usd1"%string st H) as (x & w & y & E & A & C).
    exists x, w, y, "usd1"%string. repeat split; auto. simpl; tauto.
  - destruct (Hpost "usd2"%string (alts [word "usd"; word "USD"]) st eq_refl H)
      as (x & w & y & E & A & C).
    exists x, w, y, "usd2"%string. repeat split; auto. simpl; tauto.
  - destruct (Hpost "eur"%string (alts [word "eur"; word "EUR"; Lit euro_sign]) st
                    eq_refl H) as (x & w & y & E & A & C).
    exists x, w, y, "eur"%string. repeat split; auto. simpl; tauto.
  - destruct (Hpre euro_sign "eur2"%string st H) as (x & w & y & E & A & C).
    exists x, w, y, "eur2"%string. repeat split; auto. simpl; tauto.
Qed.

Lemma amount_two_digits w :
  amount w ->
  exists d1 d2 more, w = d1 :: d2 :: more /\ isdecimal d1 = true /\ isdecimal d2 = true.
Proof.
  intros (ds & fr & -> & L & F & _).
  destruct ds as [|d1 [|d2 ds]]; simpl in L; try lia.
  inversion F as [|? ? H1 F']. inversion F' as [|? ? H2 _]. subst.
  exists d1, d2, (ds ++ fr). auto.
Qed.

(** The amount of a price is read from the text: it is the text of an amount
    that stands in it, beginning with two digits, with the commas deleted. *)
Theorem price_is_read_from_text (text out : str) :
  extract_price text = Returns (Some out) ->
  exists cur x w y,
    text = x ++ w ++ y /\ amount w /\
    (cur = py "USD" \/ cur = py "EUR") /\
    out = cur ++ py " " ++ replace_char 44 [] w /\
    exists d1 d2 more,
      w = d1 :: d2 :: more /\ isdecimal d1 = true /\ isdecimal d2 = true.
Proof.
  unfold extract_price. destruct text as [|c text]; [discriminate|].
  unfold search. destruct (search_from PRICE_RE None (c :: text) 0) as [mo|] eqn:S;
    [|discriminate].
  apply search_from_suffix in S.
  destruct S as (skipped & b' & s' & st & Es & Hin & Hc).
  apply price_amount_ahead in Hin.
  destruct Hin as (x & w & y & name & Ew & Hw & Hcaps & Hname).
  pose proof (amount_nonempty Hw) as Hne.
  pose proof (amount_two_digits Hw) as Hd.
  unfold group. rewrite Hc, Hcaps.
  assert (Et : c :: text = (skipped ++ x) ++ w ++ y)
    by (rewrite Es, Ew, <- app_assoc; reflexivity).
  destruct w as [|d w']; [congruence|].
  simpl in Hname.
  destruct Hname as [<-|[<-|[<-|[<-|[]]]]]; cbn; intros H; injection H as H;
    [ exists (py "USD") | exists (py "USD") | exists (py "EUR") | exists (py "EUR") ];
    exists (skipped ++ x), (d :: w'), y;
    (split; [exact Et|]); (split; [exact Hw|]); (split; [auto|]);
    (split; [symmetry; exact H | exact Hd]).
Qed.

Lemma replace_char_not_in old s : ~ In old (replace_char old [] s).
Proof.
  unfold replace_char. intros H. apply in_flat_map in H. destruct H as (c & _ & H).
  destruct (N.eqb_spec c old) as [E|Hne]; [destruct H|].
  destruct H as [E|[]]. congruence.
Qed.

Lemma replace_amount_length w :
  amount w -> 2 <= length (replace_char 44 [] w) <= 9.
Proof.
  intros (ds & fr & -> & L & F & Hfr).
  rewrite replace_char_app, (replace_digits F), length_app.
  destruct Hfr as [->|(sep & a & b & -> & Hsep & Ha & Hb)]; [simpl; lia|].
  destruct (isdecimal_not_sep _ Ha) as [Na _].
  destruct (isdecimal_not_sep _ Hb) as [Nb _].
  apply N.eqb_neq in Na, Nb.
  destruct Hsep as [-> | ->]; unfold replace_char; cbn [flat_map];
    rewrite Na, Nb; cbn [N.eqb Pos.eqb app length]; lia.
Qed.

(** The text of a price has between 6 and 13 characters: the currency, a
    space, at most six digits before the dot (the digits of a longer number
    beyond the sixth are dropped), and no comma. *)
Theorem price_text_bounds (text out : str) :
  extract_price text = Returns (Some out) ->
  6 <= length out <= 13 /\ ~ In 44%N out.
Proof.
  intros H.
  destruct (extract_price_cases text) as [E|(cur & w & Hcur & Hw & E)];
    rewrite E in H; [discriminate|].
  assert (Eo : out = cur ++ py " " ++ replace_char 44 [] w) by congruence.
  subst out. clear H E.
  pose proof (replace_amount_length Hw) as L.
  assert (Lc : length cur = 3) by (destruct Hcur as [-> | ->]; reflexivity).
  split.
  - rewrite !length_app, Lc. change (length (py " ")) with 1. lia.
  - intros Hin. apply in_app_or in Hin. destruct Hin as [Hin|Hin].
    + destruct Hcur as [-> | ->]; vm_compute in Hin; intuition discriminate.
    + apply in_app_or in Hin. destruct Hin as [Hin|Hin].
      * vm_compute in Hin. intuition discriminate.
      * exact (replace_char_not_in _ _ Hin).
Qed.

End PriceSource.

(** The text "asking $1250.00 shipped": the amount 1250.00 stands in the
    text behind the dollar sign. *)
Lemma price_read_from_asking_text :
  extract_price (U := plain_db) (py "asking $1250.00 shipped")
    = Returns (Some (py "USD 1250.00")) /\
  exists cur x w y,
    py "asking $1250.00 shipped" = x ++ w ++ y /\ amount (U := plain_db) w /\
    (cur = py "USD" \/ cur = py "EUR") /\
    py "USD 1250.00" = cur ++ py " " ++ replace_char 44 [] w /\
    exists d1 d2 more,
      w = d1 :: d2 :: more /\ isdecimal (U := plain_db) d1 = true /\
      isdecimal (U := plain_db) d2 = true.
Proof.
  assert (H : extract_price (U := plain_db) (py "asking $1250.00 shipped")
              = Returns (Some (py "USD 1250.00"))) by (vm_compute; reflexivity).
  split; [exact H|].
  exact (@price_is_read_from_text plain_db (py "asking $1250.00 shipped")
           (py "USD 1250.00") H).
Defined.

(** The text "$12,34": the price USD 1234 has 8 characters and no comma. *)
Lemma price_bounds_on_comma_text :
  extract_price (U := plain_db) (py "$12,34") = Returns (Some (py "USD 1234")) /\
  6 <= length (py "USD 1234") <= 13 /\ ~ In 44%N (py "USD 1234").
Proof.
  assert (H : extract_price (U := plain_db) (py "$12,34")
              = Returns (Some (py "USD 1234"))) by (vm_compute; reflexivity).
  split; [exact H|].
  exact (@price_text_bounds plain_db (py "$12,34") (py "USD 1234") H).
Defined.

(** ** Letter case, the shipping hints and the label *)

Section CaseBlind.
Context {U : UnicodeDB}.

(** A test that holds of the 128 ASCII code points holds of every ASCII
    character. *)
Lemma below_128 (P : char -> bool) :
  forallb P (map N.of_nat (List.seq 0 128)) = true ->
  forall c, is_ascii c = true -> P c = true.
Proof.
  intros H c Hc. rewrite forallb_forall in H. apply H.
  rewrite <- (N2Nat.id c). apply in_map. apply in_seq.
  unfold is_ascii in Hc. apply N.ltb_lt in Hc. lia.
Qed.

Lemma hd_error_map {A B} (g : A -> B) l : hd_error (map g l) = option_map g (hd_error l).
Proof. destruct l; reflexivity. Qed.

Lemma flat_map_map {A B C} (g : A -> B) (h : B -> list C) l :
  flat_map h (map g l) = flat_map (fun x => h (g x)) l.
Proof. induction l as [|a l IH]; simpl; [reflexivity | now rewrite IH]. Qed.

Lemma map_flat_map {A B C} (g : B -> C) (h : A -> list B) l :
  map g (flat_map h l) = flat_map (fun x => map g (h x)) l.
Proof. induction l as [|a l IH]; simpl; [reflexivity | now rewrite map_app, IH]. Qed.

Section Folding.
Variable f : char -> char.
Hypothesis f_ascii : forall c, is_ascii (f c) = is_ascii c.
Hypothesis f_beyond : forall c, is_ascii c = false -> f c = c.
Hypothesis f_lower : forall c, is_ascii c = true -> ascii_lower (f c) = ascii_lower c.
Hypothesis f_space : forall c, is_ascii c = true -> ascii_isspace (f c) = ascii_isspace c.
Hypothesis f_digit : forall c, is_ascii c = true -> ascii_isdigit (f c) = ascii_isdigit c.
Hypothesis f_word : forall c, is_ascii c = true -> ascii_isword (f c) = ascii_isword c.

Lemma isspace_fold c : isspace (f c) = isspace c.
Proof.
  unfold isspace. rewrite f_ascii. destruct (is_ascii c) eqn:A;
    [now apply f_space | now rewrite f_beyond].
Qed.

Lemma isdecimal_fold c : isdecimal (f c) = isdecimal c.
Proof.
  unfold isdecimal. rewrite f_ascii. destruct (is_ascii c) eqn:A;
    [now apply f_digit | now rewrite f_beyond].
Qed.

Lemma isword_fold c : isword (f c) = isword c.
Proof.
  unfold isword. rewrite f_ascii. destruct (is_ascii c) eqn:A;
    [now apply (f_word c) | now rewrite f_beyond].
Qed.

(** Under [re.IGNORECASE] an ASCII letter of the pattern matches a character
    and its image alike. *)
Lemma char_match_fold p c :
  is_ascii p = true -> char_match true p (f c) = char_match true p c.
Proof.
  intros Hp. destruct (is_ascii c) eqn:A; [|now rewrite f_beyond].
  unfold char_match. rewrite f_ascii, Hp, A. cbn [andb]. rewrite (f_lower c A).
  destruct (N.eqb_spec (ascii_lower p) (ascii_lower c)) as [E|E].
  - now rewrite !orb_true_r.
  - rewrite !orb_false_r.
    destruct (N.eqb_spec p (f c)) as [E1|_].
    + exfalso. apply E. rewrite E1. now apply f_lower.
    + destruct (N.eqb_spec p c) as [E2|_]; [|reflexivity].
      exfalso. apply E. now rewrite E2.
Qed.

Lemma at_char_fold ok st :
  (forall c, ok (f c) = ok c) ->
  at_char ok (map_state f st) = map (map_state f) (at_char ok st).
Proof.
  intros Hok. unfold at_char, step, map_state. cbn [rest caps].
  destruct (rest st) as [|c s]; [reflexivity|]. cbn [map]. rewrite Hok.
  destruct (ok c); reflexivity.
Qed.

Lemma times_fold g n :
  (forall st, g (map_state f st) = map (map_state f) (g st)) ->
  forall st, times g n (map_state f st) = map (map_state f) (times g n st).
Proof.
  intros Hg. induction n as [|n IH]; intros st; cbn [times]; [reflexivity|].
  rewrite Hg, flat_map_map, map_flat_map. apply flat_map_ext. intros x. apply IH.
Qed.

Lemma upto_fold g n :
  (forall st, g (map_state f st) = map (map_state f) (g st)) ->
  forall st, upto g n (map_state f st) = map (map_state f) (upto g n st).
Proof.
  intros Hg. induction n as [|n IH]; intros st; cbn [upto]; [reflexivity|].
  rewrite Hg, flat_map_map, map_app, map_flat_map. f_equal.
  apply flat_map_ext. intros x. apply IH.
Qed.

Section Literals.
Variable lit_ok : char -> bool.
Hypothesis f_lit :
  forall p c, lit_ok p = true -> char_match true p (f c) = char_match true p c.

Lemma items_fold items c :
  forallb (fun i => match i with SChr p => lit_ok p | _ => false end) items = true ->
  existsb (fun i => item_match true i (f c)) items
  = existsb (fun i => item_match true i c) items.
Proof.
  induction items as [|i items IH]; cbn [forallb existsb]; [reflexivity|].
  intros H. apply andb_true_iff in H. destruct H as [Hi Hr].
  rewrite (IH Hr). f_equal.
  destruct i as [p|lo hi|k]; try discriminate. cbn [item_match]. now apply f_lit.
Qed.

(** A pattern of such literals, classes and word boundaries, matched under
    [re.IGNORECASE], does to the image of a text what it does to the text. *)
Lemma matches_fold r :
  plain lit_ok r = true ->
  forall st, matches true r (map_state f st) = map (map_state f) (matches true r st).
Proof.
  induction r as [p|k|items|items| | |x IHx y IHy|x IHx y IHy|lo hi x IHx|name x IHx];
    cbn [plain]; intros P st; try discriminate.
  - cbn [matches]. apply at_char_fold. intros c. now apply f_lit.
  - cbn [matches]. apply at_char_fold. intros c.
    destruct k; [apply isdecimal_fold | apply isspace_fold].
  - cbn [matches]. apply at_char_fold. intros c. now apply items_fold.
  - cbn [matches].
    assert (E : at_boundary (map_state f st) = at_boundary st).
    { unfold at_boundary, map_state. cbn [prev rest]. rewrite hd_error_map.
      f_equal; [destruct (prev st) | destruct (hd_error (rest st))];
        cbn [option_map is_word_opt]; auto using isword_fold. }
    rewrite E. destruct (at_boundary st); reflexivity.
  - reflexivity.
  - apply andb_true_iff in P. destruct P as [Px Py].
    cbn [matches]. rewrite (IHx Px), flat_map_map, map_flat_map.
    apply flat_map_ext. intros a. apply (IHy Py).
  - apply andb_true_iff in P. destruct P as [Px Py].
    cbn [matches]. now rewrite (IHx Px), (IHy Py), map_app.
  - cbn [matches].
    replace (length (rest (map_state f st))) with (length (rest st))
      by (unfold map_state; cbn [rest]; now rewrite length_map).
    rewrite (times_fold (matches true x) lo (IHx P)), flat_map_map, map_flat_map.
    apply flat_map_ext. intros a. apply (upto_fold (matches true x) _ (IHx P)).
Qed.

Lemma match_here_fold p before s :
  ignorecase p = true -> plain lit_ok (tree p) = true ->
  match_here p (option_map f before) (map f s)
  = option_map (map_state f) (match_here p before s).
Proof.
  intros Hi Hp. unfold match_here. rewrite Hi.
  change (MState (option_map f before) (map f s) [])
    with (map_state f (MState before s [])).
  now rewrite (matches_fold _ Hp), hd_error_map.
Qed.

Lemma search_from_fold p s : forall before pos,
  ignorecase p = true -> plain lit_ok (tree p) = true ->
  (search_from p (option_map f before) (map f s) pos = None <->
   search_from p before s pos = None).
Proof.
  induction s as [|c s IH]; intros before pos Hi Hp.
  - pose proof (match_here_fold p before [] Hi Hp) as M. cbn [map] in M.
    cbn [map search_from]. rewrite M.
    destruct (match_here p before []); cbn [option_map]; split; auto; discriminate.
  - pose proof (match_here_fold p before (c :: s) Hi Hp) as M. cbn [map] in M.
    cbn [map search_from]. rewrite M.
    destruct (match_here p before (c :: s)); cbn [option_map];
      [split; discriminate|].
    apply (IH (Some c) (S pos) Hi Hp).
Qed.

(** The pattern is found in the image of a text exactly when it is found in
    the text. *)
Lemma found_fold p s :
  ignorecase p = true -> plain lit_ok (tree p) = true ->
  found p (map f s) = found p s.
Proof.
  intros Hi Hp. unfold found, search.
  pose proof (search_from_fold p s None 0 Hi Hp) as H. cbn [option_map] in H.
  destruct (search_from p None (map f s) 0) as [m|], (search_from p None s 0) as [m'|];
    try reflexivity; exfalso.
  - assert (E : Some m = None) by (apply H; reflexivity). discriminate E.
  - assert (E : Some m' = None) by (apply H; reflexivity). discriminate E.
Qed.

Lemma any_search_fold l s :
  Forall (fun p => ignorecase p = true /\ plain lit_ok (tree p) = true) l ->
  any_search l (map f s) = any_search l s.
Proof.
  unfold any_search. induction 1 as [|p l [Hi Hp] _ IH]; cbn [existsb]; [reflexivity|].
  now rewrite IH, (found_fold p s Hi Hp).
Qed.

End Literals.

Lemma ship_hints_plain :
  Forall (fun h => ignorecase (snd h) = true /\ plain is_ascii (tree (snd h)) = true)
         SHIP_DEST_HINTS.
Proof. repeat constructor. Qed.

Lemma extract_ship_dests_fold text :
  extract_ship_dests (map f text) = extract_ship_dests text.
Proof.
  destruct text as [|c text]; [reflexivity|].
  change (map f (c :: text)) with (f c :: map f text).
  unfold extract_ship_dests, found_dests.
  change (f c :: map f text) with (map f (c :: text)).
  rewrite (filter_ext_in (fun h => found (snd h) (map f (c :: text)))
                         (fun h => found (snd h) (c :: text))); [reflexivity|].
  intros h Hin. pose proof ship_hints_plain as F. rewrite Forall_forall in F.
  destruct (F h Hin) as [Hi Hp].
  exact (@found_fold is_ascii (fun p c H => char_match_fold p c H) (snd h) (c :: text) Hi Hp).
Qed.

Lemma label_patterns_plain :
  Forall (fun p => ignorecase p = true /\ plain ascii_or_quote (tree p) = true)
         (LABEL_YES_PATTERNS ++ LABEL_NO_PATTERNS).
Proof. repeat constructor. Qed.

Lemma infer_buyer_label_fold text :
  (forall c, char_match true right_quote (f c) = char_match true right_quote c) ->
  infer_buyer_label (map f text) = infer_buyer_label text.
Proof.
  intros Hq.
  assert (Hlit : forall p c, ascii_or_quote p = true ->
                             char_match true p (f c) = char_match true p c).
  { intros p c H. unfold ascii_or_quote in H. apply orb_true_iff in H.
    destruct H as [H|H]; [now apply char_match_fold|].
    apply N.eqb_eq in H. subst p. apply Hq. }
  pose proof label_patterns_plain as F. apply Forall_app in F. destruct F as [Fy Fn].
  destruct text as [|c text]; [reflexivity|].
  change (map f (c :: text)) with (f c :: map f text).
  unfold infer_buyer_label.
  change (f c :: map f text) with (map f (c :: text)).
  now rewrite (@any_search_fold ascii_or_quote Hlit _ (c :: text) Fy),
              (@any_search_fold ascii_or_quote Hlit _ (c :: text) Fn).
Qed.

End Folding.

Lemma ascii_upper_beyond c : is_ascii c = false -> ascii_upper c = c.
Proof.
  unfold is_ascii, ascii_upper, ascii_islower, in_range. intros H.
  apply N.ltb_ge in H.
  destruct (N.leb_spec 97 c), (N.leb_spec c 122); cbn [andb]; try reflexivity; lia.
Qed.

Lemma ascii_lower_beyond c : is_ascii c = false -> ascii_lower c = c.
Proof.
  unfold is_ascii, ascii_lower, ascii_isupper, in_range. intros H.
  apply N.ltb_ge in H.
  destruct (N.leb_spec 65 c), (N.leb_spec c 90); cbn [andb]; try reflexivity; lia.
Qed.

Lemma eqb_bool_eq (a b : bool) : Bool.eqb a b = true -> a = b.
Proof. destruct a, b; simpl; congruence. Qed.

(** The shipping destinations do not depend on the case of the ASCII letters
    of the text: the text in capitals and the text in small letters give what
    the text gives. *)
Theorem ship_dests_ignore_case (text : str) :
  extract_ship_dests (map ascii_upper text) = extract_ship_dests text /\
  extract_ship_dests (map ascii_lower text) = extract_ship_dests text.
Proof.
  split.
  - apply extract_ship_dests_fold.
    + intros c. destruct (is_ascii c) eqn:A; [|now rewrite ascii_upper_beyond].
      apply eqb_bool_eq.
      exact (below_128 (fun c => Bool.eqb (is_ascii (ascii_upper c)) true) eq_refl c A).
    + apply ascii_upper_beyond.
    + intros c A. apply N.eqb_eq.
      exact (below_128 (fun c => (ascii_lower (ascii_upper c) =? ascii_lower c)%N)
                       eq_refl c A).
    + intros c A. apply eqb_bool_eq.
      exact (below_128 (fun c => Bool.eqb (ascii_isspace (ascii_upper c)) (ascii_isspace c))
                       eq_refl c A).
    + intros c A. apply eqb_bool_eq.
      exact (below_128 (fun c => Bool.eqb (ascii_isdigit (ascii_upper c)) (ascii_isdigit c))
                       eq_refl c A).
    + intros c A. apply eqb_bool_eq.
      exact (below_128 (fun c => Bool.eqb (ascii_isword (ascii_upper c)) (ascii_isword c))
                       eq_refl c A).
  - apply extract_ship_dests_fold.
    + intros c. destruct (is_ascii c) eqn:A; [|now rewrite ascii_lower_beyond].
      apply eqb_bool_eq.
      exact (below_128 (fun c => Bool.eqb (is_ascii (ascii_lower c)) true) eq_refl c A).
    + apply ascii_lower_beyond.
    + intros c A. apply N.eqb_eq.
      exact (below_128 (fun c => (ascii_lower (ascii_lower c) =? ascii_lower c)%N)
                       eq_refl c A).
    + intros c A. apply eqb_bool_eq.
      exact (below_128 (fun c => Bool.eqb (ascii_isspace (ascii_lower c)) (ascii_isspace c))
                       eq_refl c A).
    + intros c A. apply eqb_bool_eq.
      exact (below_128 (fun c => Bool.eqb (ascii_isdigit (ascii_lower c)) (ascii_isdigit c))
                       eq_refl c A).
    + intros c A. apply eqb_bool_eq.
      exact (below_128 (fun c => Bool.eqb (ascii_isword (ascii_lower c)) (ascii_isword c))
                       eq_refl c A).
Qed.

(** The right quote matches no ASCII character and keeps doing so under a
    map of the ASCII characters, when the tables give it no ASCII variant. *)
Lemma quote_fold g c :
  (forall c, is_ascii (g c) = is_ascii c) ->
  (forall c, is_ascii c = false -> g c = c) ->
  (forall c, is_ascii c = true -> uni_casematch right_quote c = false) ->
  char_match true right_quote (g c) = char_match true right_quote c.
Proof.
  intros Ha Hb Hq. destruct (is_ascii c) eqn:A; [|now rewrite Hb].
  assert (Ag : is_ascii (g c) = true) by now rewrite Ha.
  unfold char_match. rewrite A, Ag. cbn [is_ascii right_quote N.ltb N.compare andb].
  change (is_ascii right_quote) with false. cbn [andb].
  rewrite (Hq c A), (Hq (g c) Ag), !orb_false_r.
  destruct (N.eqb_spec right_quote (g c)) as [E|_];
    [rewrite <- E in Ag; discriminate Ag|].
  destruct (N.eqb_spec right_quote c) as [E|_];
    [rewrite <- E in A; discriminate A | reflexivity].
Qed.

Lemma ascii_upper_ascii c : is_ascii (ascii_upper c) = is_ascii c.
Proof.
  destruct (is_ascii c) eqn:A; [|now rewrite ascii_upper_beyond].
  apply eqb_bool_eq.
  exact (below_128 (fun c => Bool.eqb (is_ascii (ascii_upper c)) true) eq_refl c A).
Qed.

Lemma ascii_lower_ascii c : is_ascii (ascii_lower c) = is_ascii c.
Proof.
  destruct (is_ascii c) eqn:A; [|now rewrite ascii_lower_beyond].
  apply eqb_bool_eq.
  exact (below_128 (fun c => Bool.eqb (is_ascii (ascii_lower c)) true) eq_refl c A).
Qed.

(** Who provides the label does not depend on the case of the ASCII letters
    of the text either, as long as the Unicode tables give the right quote of
    the second pattern no ASCII character as a case variant. *)
Theorem buyer_label_ignores_case (text : str) :
  (forall c, is_ascii c = true -> uni_casematch right_quote c = false) ->
  infer_buyer_label (map ascii_upper text) = infer_buyer_label text /\
  infer_buyer_label (map ascii_lower text) = infer_buyer_label text.
Proof.
  intros Hq. split.
  - apply infer_buyer_label_fold.
    + apply ascii_upper_ascii.
    + apply ascii_upper_beyond.
    + intros c A. apply N.eqb_eq.
      exact (below_128 (fun c => (ascii_lower (ascii_upper c) =? ascii_lower c)%N)
                       eq_refl c A).
    + intros c A. apply eqb_bool_eq.
      exact (below_128 (fun c => Bool.eqb (ascii_isspace (ascii_upper c)) (ascii_isspace c))
                       eq_refl c A).
    + intros c A. apply eqb_bool_eq.
      exact (below_128 (fun c => Bool.eqb (ascii_isdigit (ascii_upper c)) (ascii_isdigit c))
                       eq_refl c A).
    + intros c A. apply eqb_bool_eq.
      exact (below_128 (fun c => Bool.eqb (ascii_isword (ascii_upper c)) (ascii_isword c))
                       eq_refl c A).
    + intros c. apply quote_fold; auto using ascii_upper_ascii, ascii_upper_beyond.
  - apply infer_buyer_label_fold.
    + apply ascii_lower_ascii.
    + apply ascii_lower_beyond.
    + intros c A. apply N.eqb_eq.
      exact (below_128 (fun c => (ascii_lower (ascii_lower c) =? ascii_lower c)%N)
                       eq_refl c A).
    + intros c A. apply eqb_bool_eq.
      exact (below_128 (fun c => Bool.eqb (ascii_isspace (ascii_lower c)) (ascii_isspace c))
                       eq_refl c A).
    + intros c A. apply eqb_bool_eq.
      exact (below_128 (fun c => Bool.eqb (ascii_isdigit (ascii_lower c)) (ascii_isdigit c))
                       eq_refl c A).
    + intros c A. apply eqb_bool_eq.
      exact (below_128 (fun c => Bool.eqb (ascii_isword (ascii_lower c)) (ascii_isword c))
                       eq_refl c A).
    + intros c. apply quote_fold; auto using ascii_lower_ascii, ascii_lower_beyond.
Qed.

End CaseBlind.

(** The text "Buyer Provides Label, shipping included" in capitals and in
    small letters, with tables that give the right quote no variant. *)
Lemma buyer_label_of_shouted_text :
  (forall c, is_ascii c = true -> uni_casematch (UnicodeDB := plain_db) right_quote c = false) /\
  infer_buyer_label (U := plain_db)
    (map ascii_upper (py "Buyer Provides Label, shipping included"))
  = infer_buyer_label (U := plain_db) (py "Buyer Provides Label, shipping included") /\
  infer_buyer_label (U := plain_db)
    (map ascii_lower (py "Buyer Provides Label, shipping included"))
  = infer_buyer_label (U := plain_db) (py "Buyer Provides Label, shipping included").
Proof.
  assert (H : forall c, is_ascii c = true ->
                        uni_casematch (UnicodeDB := plain_db) right_quote c = false)
    by (intros c _; reflexivity).
  split; [exact H|].
  exact (@buyer_label_ignores_case plain_db
           (py "Buyer Provides Label, shipping included") H).
Defined.

(** ** The currency of a price *)

Section PriceMark.
Context {U : UnicodeDB}.

Lemma lit_inv c st st' :
  In st' (matches false (Lit c) st) -> rest st = [c] ++ rest st' /\ caps st' = caps st.
Proof.
  cbn [matches]. intros H. apply at_char_inv in H.
  destruct H as (x & Hx & E & C & _). rewrite char_match_exact in Hx.
  apply N.eqb_eq in Hx. subst x. auto.
Qed.

Lemma gap_inv st st' :
  In st' (matches false (Opt (Cls Space)) st) ->
  exists g, gap g /\ rest st = g ++ rest st' /\ caps st' = caps st.
Proof.
  intros H. apply in_opt in H. destruct H as [H| ->].
  - cbn [matches] in H. apply at_char_inv in H.
    destruct H as (b & Hb & E & C & _). exists [b]. split; [|auto].
    right. exists b. auto.
  - exists []. split; [now left | auto].
Qed.

(** A run of literals matches itself only. *)
Lemma word_inv w : forall st st',
  w <> [] -> In st' (matches false (seq (map Lit w)) st) -> rest st = w ++ rest st'.
Proof.
  induction w as [|c w IH]; intros st st' Hne H; [congruence|].
  destruct w as [|d w].
  - cbn [map seq] in H. now apply lit_inv in H.
  - change (seq (map Lit (c :: d :: w))) with (Cat (Lit c) (seq (map Lit (d :: w)))) in H.
    apply in_cat in H. destruct H as (mid & H1 & H2).
    apply lit_inv in H1. destruct H1 as [E1 _].
    apply IH in H2; [|discriminate]. rewrite E1, H2. reflexivity.
Qed.

(** A match of [PRICE_RE] reads a mark, a gap and an amount, in the order of
    one of its four alternatives, and sets the group of that alternative. *)
Lemma price_mark_ahead before s st :
  In st (matches false (tree PRICE_RE) (MState before s [])) ->
  exists name g w y,
    gap g /\ amount w /\ caps st = [(name, w)] /\
    ((name = "usd1"%string /\ s = py "$" ++ g ++ w ++ y) \/
     (name = "usd2"%string /\
      exists mark, In mark [py "usd"; py "USD"] /\ s = w ++ g ++ mark ++ y) \/
     (name = "eur"%string /\
      exists mark, In mark [py "eur"; py "EUR"; [euro_sign]] /\ s = w ++ g ++ mark ++ y) \/
     (name = "eur2"%string /\ s = [euro_sign] ++ g ++ w ++ y)).
Proof.
  set (st0 := MState before s []).
  change (tree PRICE_RE) with
    (Alt (Cat (Lit 36) (Cat (Opt (Cls Space)) (Grp "usd1" AMOUNT)))
    (Alt (Cat (Grp "usd2" AMOUNT) (Cat (Opt (Cls Space)) (alts [word "usd"; word "USD"])))
    (Alt (Cat (Grp "eur" AMOUNT)
              (Cat (Opt (Cls Space)) (alts [word "eur"; word "EUR"; Lit euro_sign])))
         (Cat (Lit euro_sign) (Cat (Opt (Cls Space)) (Grp "eur2" AMOUNT)))))).
  assert (Hpre : forall c name st',
             In st' (matches false (Cat (Lit c) (Cat (Opt (Cls Space)) (Grp name AMOUNT))) st0) ->
             exists g w y, gap g /\ amount w /\ caps st' = [(name, w)] /\
                           s = [c] ++ g ++ w ++ y).
  { intros c name st' H.
    apply in_cat in H. destruct H as (m1 & H1 & H).
    apply in_cat in H. destruct H as (m2 & H2 & H).
    apply lit_inv in H1. destruct H1 as [E1 C1].
    apply gap_inv in H2. destruct H2 as (g & Hg & E2 & C2).
    apply in_grp in H. destruct H as (m3 & H3 & ->).
    apply amount_inv in H3. destruct H3 as (w & Hw & E & C3).
    exists g, w, (rest m3). split; [exact Hg|]. split; [exact Hw|]. split.
    - cbn [caps]. rewrite (consumed_ahead _ _ _ E), C3, C2, C1. reflexivity.
    - change s with (rest st0). rewrite E1, E2, E. reflexivity. }
  assert (Hpost : forall name tail st',
             group_free tail = true ->
             In st' (matches false (Cat (Grp name AMOUNT) (Cat (Opt (Cls Space)) tail)) st0) ->
             exists g w m2, gap g /\ amount w /\ caps st' = [(name, w)] /\
                            s = w ++ g ++ rest m2 /\ In st' (matches false tail m2)).
  { intros name tail st' G H.
    apply in_cat in H. destruct H as (m1 & H1 & H).
    apply in_cat in H. destruct H as (m2 & H2 & H).
    pose proof (group_free_caps false tail G _ _ H) as C.
    apply gap_inv in H2. destruct H2 as (g & Hg & E2 & C2).
    apply in_grp in H1. destruct H1 as (m0 & H0 & ->).
    apply amount_inv in H0. destruct H0 as (w & Hw & E & C1).
    cbn [rest caps] in E2, C2.
    exists g, w, m2. split; [exact Hg|]. split; [exact Hw|]. split; [|split].
    - rewrite C, C2. rewrite (consumed_ahead _ _ _ E), C1. reflexivity.
    - change s with (rest st0). rewrite E, E2. reflexivity.
    - exact H. }
  intros H.
  apply in_alt in H. destruct H as [H|H]; [|apply in_alt in H; destruct H as [H|H];
    [|apply in_alt in H; destruct H as [H|H]]].
  - destruct (Hpre 36%N "usd1"%string st H) as (g & w & y & Hg & A & C & E).
    exists "usd1"%string, g, w, y. repeat (split; [assumption|]). left. auto.
  - destruct (Hpost "usd2"%string (alts [word "usd"; word "USD"]) st eq_refl H)
      as (g & w & m2 & Hg & A & C & E & Ht).
    exists "usd2"%string, g, w, (rest st). repeat (split; [assumption|]).
    right. left. split; [reflexivity|].
    apply in_alt in Ht. destruct Ht as [Ht|Ht];
      apply (@word_inv _ m2 st) in Ht; try discriminate;
      [exists (py "usd") | exists (py "USD")];
      (split; [simpl; tauto | rewrite E, Ht; reflexivity]).
  - destruct (Hpost "eur"%string (alts [word "eur"; word "EUR"; Lit euro_sign]) st
                    eq_refl H) as (g & w & m2 & Hg & A & C & E & Ht).
    exists "eur"%string, g, w, (rest st). repeat (split; [assumption|]).
    right. right. left. split; [reflexivity|].
    apply in_alt in Ht. destruct Ht as [Ht|Ht]; [|apply in_alt in Ht; destruct Ht as [Ht|Ht]].
    + apply (@word_inv _ m2 st) in Ht; [|discriminate].
      exists (py "eur"). split; [simpl; tauto | rewrite E, Ht; reflexivity].
    + apply (@word_inv _ m2 st) in Ht; [|discriminate].
      exists (py "EUR"). split; [simpl; tauto | rewrite E, Ht; reflexivity].
    + apply lit_inv in Ht. destruct Ht as [Ht _].
      exists [euro_sign]. split; [simpl; tauto | rewrite E, Ht; reflexivity].
  - destruct (Hpre euro_sign "eur2"%string st H) as (g & w & y & Hg & A & C & E).
    exists "eur2"%string, g, w, y. repeat (split; [assumption|]). right. right. right. auto.
Qed.

(** The currency of a price is that of a mark next to its amount in the
    text: a dollar or euro sign in front of the amount, or usd, USD, eur, EUR
    or the euro sign behind it, with at most one whitespace character
    between mark and amount. *)
Theorem currency_follows_mark (text out : str) :
  extract_price text = Returns (Some out) ->
  exists mark cur x g w y,
    gap g /\ amount w /\ out = cur ++ py " " ++ replace_char 44 [] w /\
    ((In (mark, cur) MARKS_BEFORE /\ text = x ++ mark ++ g ++ w ++ y) \/
     (In (mark, cur) MARKS_AFTER /\ text = x ++ w ++ g ++ mark ++ y)).
Proof.
  unfold extract_price. destruct text as [|c text]; [discriminate|].
  unfold search. destruct (search_from PRICE_RE None (c :: text) 0) as [mo|] eqn:S;
    [|discriminate].
  apply search_from_suffix in S.
  destruct S as (x & b' & s' & st & Es & Hin & Hc).
  apply price_mark_ahead in Hin.
  destruct Hin as (name & g & w & y & Hg & Hw & Hcaps & Hcase).
  pose proof (amount_nonempty Hw) as Hne.
  unfold group. rewrite Hc, Hcaps. rewrite Es.
  destruct w as [|d w']; [congruence|].
  destruct Hcase as [[-> E]|[[-> (mark & Hm & E)]|[[-> (mark & Hm & E)]|[-> E]]]];
    cbn; intros H; injection H as H; symmetry in H.
  - exists (py "$"), (py "USD"), x, g, (d :: w'), y.
    repeat (split; [assumption|]). left. split; [simpl; tauto | now rewrite E].
  - exists mark, (py "USD"), x, g, (d :: w'), y.
    repeat (split; [assumption|]). right. split; [|now rewrite E].
    destruct Hm as [<-|[<-|[]]]; simpl; tauto.
  - exists mark, (py "EUR"), x, g, (d :: w'), y.
    repeat (split; [assumption|]). right. split; [|now rewrite E].
    destruct Hm as [<-|[<-|[<-|[]]]]; simpl; tauto.
  - exists [euro_sign], (py "EUR"), x, g, (d :: w'), y.
    repeat (split; [assumption|]). left. split; [simpl; tauto | now rewrite E].
Qed.

End PriceMark.

(** The text "asking 1250 USD shipped": the mark USD stands behind the
    amount, one blank between them. *)
Lemma currency_of_asking_text :
  extract_price (U := plain_db) (py "asking 1250 USD shipped")
    = Returns (Some (py "USD 1250")) /\
  exists mark cur x g w y,
    gap (U := plain_db) g /\ amount (U := plain_db) w /\
    py "USD 1250" = cur ++ py " " ++ replace_char 44 [] w /\
    ((In (mark, cur) MARKS_BEFORE /\
      py "asking 1250 USD shipped" = x ++ mark ++ g ++ w ++ y) \/
     (In (mark, cur) MARKS_AFTER /\
      py "asking 1250 USD shipped" = x ++ w ++ g ++ mark ++ y)).
Proof.
  assert (H : extract_price (U := plain_db) (py "asking 1250 USD shipped")
              = Returns (Some (py "USD 1250"))) by (vm_compute; reflexivity).
  split; [exact H|].
  exact (@currency_follows_mark plain_db (py "asking 1250 USD shipped")
           (py "USD 1250") H).
Defined.

(** ** Where a location comes from *)

Section LocationSource.
Context {U : UnicodeDB}.

Lemma hd_error_in {A} (l : list A) x : hd_error l = Some x -> In x l.
Proof. destruct l; simpl; [discriminate | intros [= ->]; auto]. Qed.

(** Every element of [findall] is the group of a match at some point of the
    text. *)
Lemma findall_from_in p g s : forall before skip t,
  In t (findall_from p g before s skip) ->
  exists x before' s' st,
    s = x ++ s' /\
    In st (matches (ignorecase p) (tree p) (MState before' s' [])) /\
    t = match lookup g (caps st) with Some v => v | None => [] end.
Proof.
  induction s as [|c s IH]; intros before skip t H.
  - destruct skip as [|k]; cbn [findall_from] in H; [|destruct H].
    destruct (match_here p before []) as [st|] eqn:M; [|destruct H].
    destruct H as [<-|[]]. exists [], before, [], st.
    split; [reflexivity|]. split; [apply hd_error_in, M | reflexivity].
  - destruct skip as [|k]; cbn [findall_from] in H.
    + destruct (match_here p before (c :: s)) as [st|] eqn:M.
      * destruct H as [<-|H].
        -- exists [], before, (c :: s), st.
           split; [reflexivity|]. split; [apply hd_error_in, M | reflexivity].
        -- destruct (IH _ _ _ H) as (x & b' & s' & st' & E & Hin & Et).
           exists (c :: x), b', s', st'. rewrite E. auto.
      * destruct (IH _ _ _ H) as (x & b' & s' & st' & E & Hin & Et).
        exists (c :: x), b', s', st'. rewrite E. auto.
    + destruct (IH _ _ _ H) as (x & b' & s' & st' & E & Hin & Et).
      exists (c :: x), b', s', st'. rewrite E. auto.
Qed.

(** A match of [TITLE_TAG_RE] reads an opening bracket, a body without a
    closing bracket, which it captures, and a closing bracket. *)
Lemma tag_inv before s st :
  In st (matches false (tree TITLE_TAG_RE) (MState before s [])) ->
  exists body,
    s = [91%N] ++ body ++ [93%N] ++ rest st /\
    caps st = [("tag"%string, body)] /\ ~ In 93%N body.
Proof.
  change (tree TITLE_TAG_RE) with (Cat (Lit 91) (Cat (Grp "tag" TAG_BODY) (Lit 93))).
  intros H.
  apply in_cat in H. destruct H as (m1 & H1 & H).
  apply in_cat in H. destruct H as (m2 & H2 & H3).
  apply lit_inv in H1. destruct H1 as [E1 C1]. cbn [rest caps] in E1, C1.
  apply lit_inv in H3. destruct H3 as [E3 C3].
  apply in_grp in H2. destruct H2 as (m & Hm & ->). cbn [rest caps] in E3, C3.
  unfold TAG_BODY, Plus in Hm. cbn [matches] in Hm.
  apply in_flat_map in Hm. destruct Hm as (mid & Ha & Hb).
  apply (@times_chars not_close 1 m1 mid) in Ha.
  destruct Ha as (w1 & _ & F1 & Ea & Ca).
  apply (@upto_chars not_close (length (rest m1)) mid m) in Hb.
  destruct Hb as (w2 & _ & F2 & Eb & Cb).
  assert (Em : rest m1 = (w1 ++ w2) ++ rest m) by (rewrite Ea, Eb, app_assoc; reflexivity).
  exists (w1 ++ w2). split; [|split].
  - rewrite E1, Em, E3, <- app_assoc. reflexivity.
  - rewrite C3. cbn [caps]. rewrite (consumed_ahead _ _ _ Em), Cb, Ca, C1. reflexivity.
  - intros Hin. assert (F : Forall (fun c => not_close c = true) (w1 ++ w2))
      by (apply Forall_app; auto).
    rewrite Forall_forall in F. apply F in Hin. apply not_close_spec in Hin. congruence.
Qed.

Lemma strip_middle t :
  exists ws1 ws2,
    t = ws1 ++ strip t ++ ws2 /\
    Forall (fun c => isspace c = true) ws1 /\ Forall (fun c => isspace c = true) ws2.
Proof.
  destruct (lstrip_blanks t) as (ws1 & E1 & F1).
  destruct (rstrip_blanks (lstrip t)) as (ws2 & E2 & F2).
  exists ws1, ws2. split; [|auto]. unfold strip. now rewrite <- E2.
Qed.

(** The location is a piece of the text: it stands between an opening
    bracket and the closing bracket that follows, with nothing but blanks
    between it and the brackets; it has no closing bracket in it, and neither
    begins nor ends with a blank. *)
Theorem location_stands_in_brackets (text tt : str) :
  extract_location_from_title text = Some tt ->
  (exists x ws1 ws2 y,
     text = x ++ [91%N] ++ ws1 ++ tt ++ ws2 ++ [93%N] ++ y /\
     Forall (fun c => isspace c = true) ws1 /\
     Forall (fun c => isspace c = true) ws2) /\
  ~ In 93%N tt /\
  (exists c behind, tt = c :: behind /\ isspace c = false) /\
  (exists ahead_of c, tt = ahead_of ++ [c] /\ isspace c = false).
Proof.
  unfold extract_location_from_title. intros H.
  pose proof (first_location_nonempty _ H) as Hne.
  apply first_location_inv in H.
  destruct H as (earlier & t & later & Etags & Ett & _).
  assert (Hin : In t (findall TITLE_TAG_RE "tag" text))
    by (rewrite Etags; apply in_elt).
  unfold findall in Hin. apply findall_from_in in Hin.
  destruct Hin as (x & b' & s' & st & Es & Hst & Et).
  apply tag_inv in Hst. destruct Hst as (body & Eb & Cb & Hno).
  rewrite Cb in Et. cbn in Et. subst t.
  destruct (strip_middle body) as (ws1 & ws2 & Em & F1 & F2).
  rewrite <- Ett in Em.
  split; [|split].
  - exists x, ws1, ws2, (rest st). split; [|auto].
    rewrite Es, Eb, Em at 1. rewrite <- !app_assoc. reflexivity.
  - intros Hin. apply Hno. rewrite Em. apply in_or_app. right.
    apply in_or_app. now left.
  - destruct (strip_ends body) as [E|(c & r & c' & E & Hc & (t' & El) & Hc')].
    + congruence.
    + rewrite <- Ett in E, El. split; [exists c, r | exists t', c']; auto.
Qed.

End LocationSource.

(** The title "[WTS] [ USA-CA ] Omega": the location USA-CA stands in the
    second pair of brackets, a blank on either side. *)
Lemma location_in_padded_tag :
  extract_location_from_title (U := plain_db) (py "[WTS] [ USA-CA ] Omega")
    = Some (py "USA-CA") /\
  (exists x ws1 ws2 y,
     py "[WTS] [ USA-CA ] Omega" = x ++ [91%N] ++ ws1 ++ py "USA-CA" ++ ws2 ++ [93%N] ++ y /\
     Forall (fun c => isspace (U := plain_db) c = true) ws1 /\
     Forall (fun c => isspace (U := plain_db) c = true) ws2) /\
  ~ In 93%N (py "USA-CA") /\
  (exists c behind, py "USA-CA" = c :: behind /\ isspace (U := plain_db) c = false) /\
  (exists ahead_of c, py "USA-CA" = ahead_of ++ [c] /\ isspace (U := plain_db) c = false).
Proof.
  assert (H : extract_location_from_title (U := plain_db) (py "[WTS] [ USA-CA ] Omega")
              = Some (py "USA-CA")) by (vm_compute; reflexivity).
  split; [exact H|].
  exact (@location_stands_in_brackets plain_db (py "[WTS] [ USA-CA ] Omega")
           (py "USA-CA") H).
Defined.
